(** * RFM segmentation engine of [app.py]

    A shallow embedding of the core of the Streamlit dashboard: the
    per-customer aggregation ([rfm], lines 45-51), the quintile scoring
    with [pd.qcut] (lines 56-66), the rule-based [segment] classifier
    (lines 77-89) and the KPI roll-up (lines 94-97 and 133-143).

    Modelling conventions.
    - A data frame is the list of its rows, in row order; a column is the
      list of its cells.  An [order_id] cell may be blank; the other cells
      are present.
    - [order_value] is an integer column (dtype int64): its sums wrap
      around at 64 bits.  A column of decimal order values (dtype float64)
      is summed in floating point; that case is treated apart, on the
      classified table.
    - A timestamp is its number of nanoseconds since the epoch, as pandas
      stores it; [Timedelta.days] is the floor of the division by one day.
    - [pd.qcut] interpolates its bin edges linearly between order
      statistics.  The edges are kept exact here: each edge is stored
      multiplied by the number of quantiles, and a cell [x] is compared
      with an edge as [q * x].  The rounding of the float edges is not
      modelled.
    - The charts and the messages are left out; the tables behind the
      charts ([seg_revenue], [monthly]) are modelled.
    - The quotient [champion_revenue / total_revenue] of two numpy scalars
      is a float: a finite value (kept as the exact rational), [inf],
      [-inf] or [nan]. *)

From Stdlib Require Import ZArith QArith Lia Bool String DecimalString Floats.
From stdpp Require Import base decidable option numbers strings sorting list.

Local Open Scope Z_scope.

(** ** Data model *)

Record OrderRecord := mkOrder {
  user_id : Z;
  order_id : option Z;
  order_date : Z;
  product_name : string;
  order_value : Z;
  discount_given : Z
}.

(** A row of the [rfm] frame after line 51. *)
Record CustomerMetrics := mkMetrics {
  rfm_user_id : Z;
  Recency : Z;
  Frequency : Z;
  Monetary : Z
}.

Inductive SegmentLabel :=
  | Champion
  | Loyal
  | FenceSitter
  | AtRisk
  | Churned.

Global Instance SegmentLabel_eq_dec : EqDecision SegmentLabel.
Proof. solve_decision. Defined.

(** A row of the [rfm] frame after line 89. *)
Record ScoredRow := mkScored {
  metrics : CustomerMetrics;
  R_Score : Z;
  F_Score : Z;
  M_Score : Z;
  Segment : SegmentLabel
}.

(** The only exceptions the scoring lines can raise: [pd.qcut] rejects
    repeated bin edges, and [astype(int)] rejects a missing label. *)
Inductive PandasError :=
  | BinEdgesNotUnique
  | IntCastingNaN.

Inductive except (A : Type) :=
  | Ok (a : A)
  | Raise (e : PandasError).
Arguments Ok {A} a.
Arguments Raise {A} e.

Global Instance except_ret : MRet except := fun A a => Ok a.
Global Instance except_bind : MBind except := fun A B f m =>
  match m with
  | Ok a => f a
  | Raise e => Raise e
  end.

(** ** Metric aggregation (lines 45-51) *)

Definition ns_per_day : Z := 86400000000000.

(** [Timedelta.days]. *)
Definition days (delta : Z) : Z := delta / ns_per_day.

(** [Series.max] of a group. *)
Definition series_max (xs : list Z) : Z :=
  match xs with
  | [] => 0
  | x :: t => foldr Z.max x t
  end.

(** The value of a 64-bit signed integer after overflow. *)
Definition wrap64 (z : Z) : Z := (z + 2 ^ 63) mod 2 ^ 64 - 2 ^ 63.

(** [Series.sum] of an int64 column: the cells are added one after the
    other in 64-bit arithmetic. *)
Definition series_sum (xs : list Z) : Z :=
  fold_left (fun acc x => wrap64 (acc + x)) xs 0.

(** [Series.count]: the number of cells that are not blank. *)
Definition series_count {A} (xs : list (option A)) : Z :=
  Z.of_nat (length (filter is_Some xs)).

(** [groupby("user_id")] lists each key once, in ascending order. *)
Definition group_keys (df : list OrderRecord) : list Z :=
  merge_sort Z.le (remove_dups (user_id <$> df)).

Definition group_of (u : Z) (df : list OrderRecord) : list OrderRecord :=
  filter (fun o => user_id o = u) df.

Definition agg_group (snapshot_date : Z) (df : list OrderRecord) (u : Z)
  : CustomerMetrics :=
  let g := group_of u df in
  {| rfm_user_id := u;
     Recency := days (snapshot_date - series_max (order_date <$> g));
     Frequency := series_count (order_id <$> g);
     Monetary := series_sum (order_value <$> g) |}.

Definition rfm (snapshot_date : Z) (df : list OrderRecord)
  : list CustomerMetrics :=
  agg_group snapshot_date df <$> group_keys df.

(** ** Quantile scoring (lines 56-66) *)

(** [Series.rank(method="first")]: one plus the number of cells that are
    smaller, or equal and earlier. *)
Definition rank_at (xs : list Z) (i : nat) (x : Z) : Z :=
  1 + Z.of_nat (length (filter (fun y => y < x) xs))
    + Z.of_nat (length (filter (fun y => y = x) (take i xs))).

Definition rank_first (xs : list Z) : list Z := imap (rank_at xs) xs.

(** [np.quantile], linear method, on a sorted column: the value at the
    position [pos/q], between the order statistics [lo] and [hi] at the
    fraction [fr/q]; the result is kept multiplied by [q]. *)
Definition interpolate (q : nat) (sorted : list Z) (pos : nat) : Z :=
  let lo := (pos / q)%nat in
  let fr := (pos mod q)%nat in
  let hi := Nat.min (lo + 1) (length sorted - 1) in
  Z.of_nat q * (sorted !!! lo)
  + Z.of_nat fr * (sorted !!! hi - sorted !!! lo).

(** The [k]-th of [q] quantiles sits at the position [(n-1)*k/q]. *)
Definition quantile_edge (q : nat) (sorted : list Z) (k : nat) : Z :=
  interpolate q sorted ((length sorted - 1) * k).

Definition quantile_edges (q : nat) (xs : list Z) : list Z :=
  quantile_edge q (merge_sort Z.le xs) <$> seq 0 (S q).

(** [bins.searchsorted(x, side="left")] on increasing bins. *)
Fixpoint searchsorted_left (bins : list Z) (x : Z) : nat :=
  match bins with
  | [] => 0%nat
  | b :: bs => if b <? x then S (searchsorted_left bs x) else 0%nat
  end.

(** The bin of a cell: the lowest edge is included in the first bin. *)
Definition bin_id (q : nat) (bins : list Z) (x : Z) : nat :=
  if Z.of_nat q * x =? hd 0 bins then 1%nat
  else searchsorted_left bins (Z.of_nat q * x).

(** A cell outside every bin is left without a label. *)
Definition cut_label (q : nat) (bins labels : list Z) (x : Z) : option Z :=
  let i := bin_id q bins x in
  if decide (i = 0%nat \/ i = length bins) then None
  else labels !! (i - 1)%nat.

Definition qcut (xs : list Z) (q : nat) (labels : list Z)
  : except (list (option Z)) :=
  let bins := quantile_edges q xs in
  if decide (NoDup bins) then Ok (cut_label q bins labels <$> xs)
  else Raise BinEdgesNotUnique.

Fixpoint astype_int (col : list (option Z)) : except (list Z) :=
  match col with
  | [] => Ok []
  | None :: _ => Raise IntCastingNaN
  | Some v :: rest => vs ← astype_int rest; Ok (v :: vs)
  end.

Definition score_column (xs : list Z) (labels : list Z) : except (list Z) :=
  col ← qcut xs 5 labels; astype_int col.

Definition R_Score_column (cms : list CustomerMetrics) : except (list Z) :=
  score_column (Recency <$> cms) [5; 4; 3; 2; 1].

Definition F_Score_column (cms : list CustomerMetrics) : except (list Z) :=
  score_column (rank_first (Frequency <$> cms)) [1; 2; 3; 4; 5].

Definition M_Score_column (cms : list CustomerMetrics) : except (list Z) :=
  score_column (rank_first (Monetary <$> cms)) [1; 2; 3; 4; 5].

(** ** Segmentation (lines 77-89) *)

Definition segment (r f m : Z) : SegmentLabel :=
  if (4 <=? r) && (4 <=? f) && (4 <=? m) then Champion
  else if (4 <=? f) && (3 <=? r) then Loyal
  else if 3 <=? r then FenceSitter
  else if r =? 2 then AtRisk
  else Churned.

(** Column assignment aligns the new columns with the rows. *)
Fixpoint assemble (cms : list CustomerMetrics) (rs fs ms : list Z)
  : list ScoredRow :=
  match cms, rs, fs, ms with
  | c :: cms', r :: rs', f :: fs', m :: ms' =>
      mkScored c r f m (segment r f m) :: assemble cms' rs' fs' ms'
  | _, _, _, _ => []
  end.

Definition classify (cms : list CustomerMetrics) : except (list ScoredRow) :=
  rs ← R_Score_column cms;
  fs ← F_Score_column cms;
  ms ← M_Score_column cms;
  Ok (assemble cms rs fs ms).

(** ** KPIs (lines 94-97, 110, 133-143) *)

Inductive np_float :=
  | Finite (v : Q)
  | PosInf
  | NegInf
  | NaN.

(** Division of two numpy integer scalars: a zero divisor gives a
    warning and a non-finite value, not an exception. *)
Definition true_divide (a b : Z) : np_float :=
  if b =? 0 then
    if a =? 0 then NaN else if 0 <? a then PosInf else NegInf
  else Finite (inject_Z a / inject_Z b)%Q.

(** [x > 0.50]. *)
Definition gt_half (x : np_float) : bool :=
  match x with
  | Finite v => negb (Qle_bool v (1 # 2))
  | PosInf => true
  | NegInf => false
  | NaN => false
  end.

Definition revenue_where (p : SegmentLabel -> bool) (rows : list ScoredRow) : Z :=
  series_sum (Monetary ∘ metrics <$> filter (fun r => p (Segment r) = true) rows).

Definition is_label (s x : SegmentLabel) : bool := bool_decide (x = s).

Definition isin (ss : list SegmentLabel) (x : SegmentLabel) : bool :=
  bool_decide (x ∈ ss).

(** One entry of [seg_revenue] (line 110). *)
Definition segment_revenue (s : SegmentLabel) (rows : list ScoredRow) : Z :=
  revenue_where (is_label s) rows.

Record KPI := mkKPI {
  total_customers : nat;
  total_revenue : Z;
  champion_revenue : Z;
  at_risk_revenue : Z;
  revenue_dependency : np_float;
  high_dependency : bool;
  high_risk : bool
}.

Definition kpis (rows : list ScoredRow) : KPI :=
  let total := series_sum (Monetary ∘ metrics <$> rows) in
  let champion := revenue_where (is_label Champion) rows in
  let at_risk := revenue_where (isin [AtRisk; Churned]) rows in
  let dependency := true_divide champion total in
  {| total_customers := length rows;
     total_revenue := total;
     champion_revenue := champion;
     at_risk_revenue := at_risk;
     revenue_dependency := dependency;
     high_dependency := gt_half dependency;
     high_risk := champion <? 2 * at_risk |}.

(** ** The whole run *)

Definition run (snapshot_date : Z) (df : list OrderRecord)
  : except (list ScoredRow * KPI) :=
  rows ← classify (rfm snapshot_date df);
  Ok (rows, kpis rows).

(** ** What the specification says of the aggregates

    Frequency is the number of the customer's order rows and Monetary the
    sum of their [order_value]; both written as one pass over the rows. *)

Fixpoint spec_frequency (u : Z) (df : list OrderRecord) : Z :=
  match df with
  | [] => 0
  | o :: rest =>
      (if decide (user_id o = u) then 1 else 0) + spec_frequency u rest
  end.

Fixpoint spec_monetary (u : Z) (df : list OrderRecord) : Z :=
  match df with
  | [] => 0
  | o :: rest =>
      (if decide (user_id o = u) then order_value o else 0)
      + spec_monetary u rest
  end.

(** The code's count, in the same one-pass form: the customer's rows whose
    [order_id] is not blank. *)
Fixpoint counted_frequency (u : Z) (df : list OrderRecord) : Z :=
  match df with
  | [] => 0
  | o :: rest =>
      (if decide (user_id o = u /\ is_Some (order_id o)) then 1 else 0)
      + counted_frequency u rest
  end.

(** The sum of a column in unbounded arithmetic. *)
Definition exact_sum (xs : list Z) : Z := foldr Z.add 0 xs.

(** The revenue of the rows selected by [p], in unbounded arithmetic. *)
Definition exact_revenue_where (p : SegmentLabel -> bool)
    (rows : list ScoredRow) : Z :=
  exact_sum (Monetary ∘ metrics
               <$> filter (fun r => p (Segment r) = true) rows).

(** A record with the two fields the engine never reads blanked out. *)
Definition scrub (o : OrderRecord) : OrderRecord :=
  {| user_id := user_id o;
     order_id := order_id o;
     order_date := order_date o;
     product_name := EmptyString;
     order_value := order_value o;
     discount_given := 0 |}.

(** The number of rows that received score [s] in a score column. *)
Definition bucket_size (s : Z) (col : list Z) : nat :=
  length (filter (fun v => v = s) col).

(** ** What the specification says of the direct mapping

    Row [i] is binned before row [j] on a ranked key when its key is
    smaller, or equal with [i] not after [j]; the mapping of a ranked key
    is direct when scores follow that order, the first row in it scores 1
    and the last one scores 5. *)
Definition ranked_before (key : CustomerMetrics -> Z)
    (i : nat) (a : ScoredRow) (j : nat) (b : ScoredRow) : Prop :=
  key (metrics a) < key (metrics b)
  \/ (key (metrics a) = key (metrics b) /\ (i <= j)%nat).

Definition direct_mapping (key : CustomerMetrics -> Z)
    (score : ScoredRow -> Z) (rows : list ScoredRow) : Prop :=
  (forall i j a b, rows !! i = Some a -> rows !! j = Some b ->
     ranked_before key i a j b -> score a <= score b) /\
  (forall i a, rows !! i = Some a ->
     (forall j b, rows !! j = Some b -> ranked_before key i a j b) ->
     score a = 1) /\
  (forall i a, rows !! i = Some a ->
     (forall j b, rows !! j = Some b -> ranked_before key j b i a) ->
     score a = 5).

(** ** Decimal order values (dtype float64)

    With decimal order values the Monetary column holds floats.  The
    classified table is then read as its (Segment, Monetary) pairs, and a
    column of fewer than eight cells is added from left to right in
    binary64 arithmetic. *)

Definition float64_sum (xs : list float) : float :=
  fold_left PrimFloat.add xs 0%float.

Definition float64_revenue_where (p : SegmentLabel -> bool)
    (table : list (SegmentLabel * float)) : float :=
  float64_sum (snd <$> filter (fun r => p (fst r) = true) table).

Definition float64_total_revenue (table : list (SegmentLabel * float))
  : float :=
  float64_sum (snd <$> table).

(** ** Sample inputs *)

(** One order of value [v] by customer [u], [d] days after the epoch. *)
Definition order_on (u d v : Z) : OrderRecord :=
  mkOrder u (Some u) (d * ns_per_day) EmptyString v 0.

(** Five customers, every order of value zero; snapshot on day 20. *)
Definition orders_zero_value : list OrderRecord :=
  [order_on 1 20 0; order_on 2 15 0; order_on 3 10 0; order_on 4 5 0;
   order_on 5 0 0].

(** Four customers with distinct order days; snapshot on day 3. *)
Definition orders_four_customers : list OrderRecord :=
  [order_on 1 0 10; order_on 2 1 10; order_on 3 2 10; order_on 4 3 10].

(** Five customers, two of them with the same Recency (10 days). *)
Definition orders_tied_recency : list OrderRecord :=
  [order_on 1 20 10; order_on 2 10 10; order_on 3 10 10; order_on 4 9 10;
   order_on 5 0 10].

(** Two rows of one customer, the second with a blank [order_id]. *)
Definition orders_blank_id : list OrderRecord :=
  [mkOrder 1 (Some 10) 0 EmptyString 5 0; mkOrder 1 None 0 EmptyString 7 0].

(** Two orders of value 2^62 by one customer. *)
Definition orders_overflow : list OrderRecord :=
  [mkOrder 1 (Some 10) 0 EmptyString (2 ^ 62) 0;
   mkOrder 1 (Some 11) 0 EmptyString (2 ^ 62) 0].

(** Five customers with one order each, of 1, 2, 3, 6 and 7 tenths,
    the later customers ordering more recently; snapshot on day 4. *)
Definition orders_tenths : list OrderRecord :=
  [order_on 1 0 1; order_on 2 1 2; order_on 3 2 3; order_on 4 3 6;
   order_on 5 4 7].

(** The classified table of the same upload with the order values
    written as decimals: 0.1, 0.2, 0.3, 0.6 and 0.7. *)
Definition table_tenths : list (SegmentLabel * float) :=
  [(Churned, 0x1.999999999999ap-4%float);
   (AtRisk, 0x1.999999999999ap-3%float);
   (FenceSitter, 0x1.3333333333333p-2%float);
   (Champion, 0x1.3333333333333p-1%float);
   (Champion, 0x1.6666666666666p-1%float)].

(** Five customers whose Monetary values, 0 and four times 2^62, add up
    to 2^64; snapshot on day 4. *)
Definition orders_wrap_to_zero : list OrderRecord :=
  [order_on 1 0 0; order_on 2 1 (2 ^ 62); order_on 3 2 (2 ^ 62);
   order_on 4 3 (2 ^ 62); order_on 5 4 (2 ^ 62)].

(** Five customers who all ordered on the same day. *)
Definition orders_same_day : list OrderRecord :=
  [order_on 1 7 10; order_on 2 7 20; order_on 3 7 30; order_on 4 7 40;
   order_on 5 7 50].

(** Ten customers with Recency 1..10 days at a snapshot on day 100, three
    orders each, and Monetary 100,100,200,200,...,500,500. *)
Definition three_orders (u d v : Z) : list OrderRecord :=
  [order_on u d v; order_on u (d - 1) 0; order_on u (d - 2) 0].

Definition orders_scenario : list OrderRecord :=
  three_orders 1 99 100 ++ three_orders 2 98 100 ++ three_orders 3 97 200
  ++ three_orders 4 96 200 ++ three_orders 5 95 300 ++ three_orders 6 94 300
  ++ three_orders 7 93 400 ++ three_orders 8 92 400 ++ three_orders 9 91 500
  ++ three_orders 10 90 500.

(** ** Upload check (lines 17-28) *)

Definition required_cols : list string :=
  ["user_id"; "order_id"; "order_date"; "product_name"; "order_value";
   "discount_given"]%string.

(** [all(col in df.columns for col in required_cols)]; the run stops
    when it is false. *)
Definition has_required_cols (columns : list string) : bool :=
  forallb (fun col => bool_decide (col ∈ columns)) required_cols.

(** ** Default analysis date (lines 35-40) *)



(** ** The display key [RFM_Score] (lines 68-72) *)

(** [astype(str)] of an integer cell: its decimal notation. *)
Definition astype_str (z : Z) : string :=
  NilZero.string_of_int (Z.to_int z).

Definition RFM_Score (row : ScoredRow) : string :=
  (astype_str (R_Score row) ++ astype_str (F_Score row)
   ++ astype_str (M_Score row))%string.

(** ** Revenue by segment (line 110) *)

(** The strings held by the [Segment] column. *)
Definition label_name (s : SegmentLabel) : string :=
  match s with
  | Champion => "Champion"
  | Loyal => "Loyal"
  | FenceSitter => "Fence Sitter"
  | AtRisk => "At Risk"
  | Churned => "Churned"
  end.

(** [groupby("Segment")] orders its keys as strings. *)
Definition label_le (a b : SegmentLabel) : Prop :=
  String.leb (label_name a) (label_name b) = true.

Global Instance label_le_dec : RelDecision label_le.
Proof. intros a b. unfold label_le. apply _. Defined.

Definition seg_revenue (rows : list ScoredRow) : list (SegmentLabel * Z) :=
  (fun s => (s, segment_revenue s rows))
    <$> merge_sort label_le (remove_dups (Segment <$> rows)).

(** ** Monthly revenue trend (lines 119-121) *)

(** The proleptic Gregorian date (year, month, day) of a day number
    counted from 1970-01-01, and back. *)
Definition civil_from_days (z : Z) : Z * Z * Z :=
  let z := z + 719468 in
  let era := z / 146097 in
  let doe := z - era * 146097 in
  let yoe := (doe - doe / 1460 + doe / 36524 - doe / 146096) / 365 in
  let doy := doe - (365 * yoe + yoe / 4 - yoe / 100) in
  let mp := (5 * doy + 2) / 153 in
  let d := doy - (153 * mp + 2) / 5 + 1 in
  let m := if mp <? 10 then mp + 3 else mp - 9 in
  let y := yoe + era * 400 + (if m <=? 2 then 1 else 0) in
  (y, m, d).

Definition days_from_civil (y m d : Z) : Z :=
  let y := if m <=? 2 then y - 1 else y in
  let era := y / 400 in
  let yoe := y - era * 400 in
  let doy := (153 * (if 2 <? m then m - 3 else m + 9) + 2) / 5 + d - 1 in
  let doe := yoe * 365 + yoe / 4 - yoe / 100 + doy in
  era * 146097 + doe - 719468.

(** The month of a timestamp, numbered as [12 * year + (month - 1)]. *)
Definition month_index (t : Z) : Z :=
  let '(y, m, _) := civil_from_days (t / ns_per_day) in
  12 * y + (m - 1).

(** The label of a monthly bin: midnight of the last day of the month. *)
Definition month_end (i : Z) : Z :=
  (days_from_civil ((i + 1) / 12) ((i + 1) mod 12 + 1) 1 - 1) * ns_per_day.

(** [groupby(pd.Grouper(key="order_date", freq="M"))["order_value"].sum()]:
    one line per calendar month from the month of the earliest order to
    the month of the latest one, months without orders included. *)
Definition monthly (df : list OrderRecord) : list (Z * Z) :=
  match month_index ∘ order_date <$> df with
  | [] => []
  | i :: rest =>
      let lo := foldr Z.min i rest in
      let hi := foldr Z.max i rest in
      (fun j =>
         (month_end j,
          series_sum
            (order_value
               <$> filter (fun o => month_index (order_date o) = j) df)))
        <$> seqZ lo (hi - lo + 1)
  end.

(** * Properties *)

(** ** The error monad *)

Lemma bind_Ok {A B} (m : except A) (f : A -> except B) (b : B) :
  (m ≫= f) = Ok b -> exists a, m = Ok a /\ f a = Ok b.
Proof. destruct m as [a|e]; simpl; [eauto | discriminate]. Qed.

Ltac inv_bind H :=
  let a := fresh "a" in
  let Ha := fresh "Ha" in
  apply bind_Ok in H; destruct H as (a & Ha & H).

(** ** Segment classifier *)

Local Ltac split_segment :=
  unfold segment;
  repeat match goal with
  | |- context [?a <=? ?b] => destruct (Z.leb_spec a b); simpl
  | |- context [?a =? ?b] => destruct (Z.eqb_spec a b); simpl
  end.

Lemma segment_Champion r f m :
  segment r f m = Champion <-> 4 <= r /\ 4 <= f /\ 4 <= m.
Proof. split_segment; split; intros; try discriminate; lia || done. Qed.

Lemma segment_Loyal r f m :
  segment r f m = Loyal <->
  ~ (4 <= r /\ 4 <= f /\ 4 <= m) /\ 4 <= f /\ 3 <= r.
Proof. split_segment; split; intros; try discriminate; lia || done. Qed.

Lemma segment_FenceSitter r f m :
  segment r f m = FenceSitter <-> ~ (4 <= f) /\ 3 <= r.
Proof. split_segment; split; intros; try discriminate; lia || done. Qed.

Lemma segment_AtRisk r f m : segment r f m = AtRisk <-> r = 2.
Proof. split_segment; split; intros; try discriminate; lia || done. Qed.

Lemma segment_Churned r f m :
  segment r f m = Churned <-> r < 2.
Proof. split_segment; split; intros; try discriminate; lia || done. Qed.

Lemma assemble_Segment cms rs fs ms row :
  row ∈ assemble cms rs fs ms ->
  Segment row = segment (R_Score row) (F_Score row) (M_Score row).
Proof.
  revert rs fs ms.
  induction cms as [|c cms IH]; intros [|r rs] [|f fs] [|m ms] Hin;
    simpl in Hin; try (by apply elem_of_nil in Hin).
  apply elem_of_cons in Hin as [-> | Hin]; [done | eauto].
Qed.

(** C1: on score triples in 1..5 the classifier is the first-match rule
    list Champion, Loyal, Fence Sitter, At Risk, Churned; rule 4 is the
    equality R = 2, so R = 1 gives Churned whatever F and M are; and every
    classified row carries the segment computed from its own triple. *)
Theorem segment_first_match (r f m : Z) :
  1 <= r <= 5 -> 1 <= f <= 5 -> 1 <= m <= 5 ->
  let rule1 := 4 <= r /\ 4 <= f /\ 4 <= m in
  let rule2 := 4 <= f /\ 3 <= r in
  let rule3 := 3 <= r in
  let rule4 := r = 2 in
  (segment r f m = Champion <-> rule1) /\
  (segment r f m = Loyal <-> ~ rule1 /\ rule2) /\
  (segment r f m = FenceSitter <-> ~ rule1 /\ ~ rule2 /\ rule3) /\
  (segment r f m = AtRisk <-> ~ rule1 /\ ~ rule2 /\ ~ rule3 /\ rule4) /\
  (segment r f m = Churned <->
     ~ rule1 /\ ~ rule2 /\ ~ rule3 /\ ~ rule4) /\
  (r = 1 -> segment r f m = Churned) /\
  (forall cms rs fs ms row, row ∈ assemble cms rs fs ms ->
     R_Score row = r -> F_Score row = f -> M_Score row = m ->
     Segment row = segment r f m).
Proof.
  intros Hr Hf Hm rule1 rule2 rule3 rule4.
  subst rule1 rule2 rule3 rule4.
  rewrite segment_Champion, segment_Loyal, segment_FenceSitter,
    segment_AtRisk, segment_Churned.
  repeat split; try lia.
  intros cms rs fs ms row Hin <- <- <-. by eapply assemble_Segment.
Qed.

Lemma segment_first_match_witness :
  segment 1 5 5 = Churned.
Proof.
  apply (segment_first_match 1 5 5); [lia | lia | lia | reflexivity].
Defined.

(** ** Metric aggregation *)

Lemma elem_of_group_keys u df : u ∈ group_keys df <-> u ∈ user_id <$> df.
Proof.
  unfold group_keys. rewrite merge_sort_Permutation.
  apply elem_of_remove_dups.
Qed.

Lemma NoDup_group_keys df : NoDup (group_keys df).
Proof.
  unfold group_keys. rewrite merge_sort_Permutation.
  apply NoDup_remove_dups.
Qed.

Lemma rfm_user_ids snapshot_date df :
  rfm_user_id <$> rfm snapshot_date df = group_keys df.
Proof.
  unfold rfm. rewrite <- list_fmap_compose.
  induction (group_keys df) as [|u us IH]; simpl; [done | by f_equal].
Qed.

Lemma elem_of_rfm snapshot_date df c :
  c ∈ rfm snapshot_date df <->
  rfm_user_id c ∈ user_id <$> df /\
  c = agg_group snapshot_date df (rfm_user_id c).
Proof.
  unfold rfm. rewrite list_elem_of_fmap. split.
  - intros (u & -> & Hu). simpl. by rewrite <- elem_of_group_keys.
  - intros [Hu Hc]. exists (rfm_user_id c).
    by rewrite elem_of_group_keys.
Qed.

Lemma foldr_max_ge (x : Z) (t : list Z) :
  x <= foldr Z.max x t /\ forall y, y ∈ t -> y <= foldr Z.max x t.
Proof.
  induction t as [|z t [IHx IHt]]; simpl.
  - split; [lia | intros y Hy; by apply elem_of_nil in Hy].
  - split; [lia |].
    intros y [-> | Hy]%elem_of_cons; [lia |].
    specialize (IHt y Hy). lia.
Qed.

Lemma foldr_max_elem (x : Z) (t : list Z) : foldr Z.max x t ∈ x :: t.
Proof.
  induction t as [|z t IH]; simpl; [apply list_elem_of_here |].
  destruct (Z.max_spec z (foldr Z.max x t)) as [[_ ->] | [_ ->]].
  - apply elem_of_cons in IH as [-> | IH];
      [apply list_elem_of_here | do 2 apply list_elem_of_further; done].
  - apply list_elem_of_further, list_elem_of_here.
Qed.

Lemma series_max_ge xs y : y ∈ xs -> y <= series_max xs.
Proof.
  destruct xs as [|x t]; simpl; [by intros ?%elem_of_nil |].
  destruct (foldr_max_ge x t) as [Hx Ht].
  intros [-> | Hy]%elem_of_cons; auto.
Qed.

Lemma series_max_elem xs : xs <> [] -> series_max xs ∈ xs.
Proof. destruct xs as [|x t]; [done | intros _; apply foldr_max_elem]. Qed.

Lemma elem_of_group_of u df o :
  o ∈ group_of u df <-> o ∈ df /\ user_id o = u.
Proof. unfold group_of. rewrite list_elem_of_filter. tauto. Qed.

(** The latest order of a customer that has one. *)
Lemma latest_order u df :
  u ∈ user_id <$> df ->
  exists o, o ∈ df /\ user_id o = u /\
    order_date o = series_max (order_date <$> group_of u df) /\
    forall o', o' ∈ df -> user_id o' = u -> order_date o' <= order_date o.
Proof.
  intros (o0 & Hu0 & Ho0)%list_elem_of_fmap.
  assert (Hne : order_date <$> group_of u df <> []).
  { intros Hnil%fmap_nil_inv.
    assert (Hin : o0 ∈ group_of u df) by (by apply elem_of_group_of).
    rewrite Hnil in Hin. by apply elem_of_nil in Hin. }
  apply series_max_elem in Hne.
  apply list_elem_of_fmap in Hne as (o & Hdate & [Ho Hu]%elem_of_group_of).
  exists o. repeat split; auto.
  intros o' Ho' Hu'. rewrite <- Hdate. apply series_max_ge.
  apply list_elem_of_fmap. exists o'. split; [done |].
  by apply elem_of_group_of.
Qed.

(** ** 64-bit sums *)

Lemma wrap64_small (z : Z) : - 2 ^ 63 <= z < 2 ^ 63 -> wrap64 z = z.
Proof. intros Hz. unfold wrap64. rewrite Z.mod_small; lia. Qed.

Lemma wrap64_range (z : Z) : - 2 ^ 63 <= wrap64 z < 2 ^ 63.
Proof.
  unfold wrap64.
  pose proof (Z.mod_pos_bound (z + 2 ^ 63) (2 ^ 64) eq_refl). lia.
Qed.

Lemma wrap64_add_l (a b : Z) : wrap64 (wrap64 a + b) = wrap64 (a + b).
Proof.
  unfold wrap64. f_equal.
  replace ((a + 2 ^ 63) mod 2 ^ 64 - 2 ^ 63 + b + 2 ^ 63)
    with ((a + 2 ^ 63) mod 2 ^ 64 + b) by lia.
  rewrite Zplus_mod_idemp_l. f_equal. lia.
Qed.

Lemma wrap64_add_r (a b : Z) : wrap64 (a + wrap64 b) = wrap64 (a + b).
Proof. rewrite (Z.add_comm a), wrap64_add_l. f_equal. lia. Qed.

Lemma wrap64_turns (z : Z) : exists k, wrap64 z = z + k * 2 ^ 64.
Proof.
  exists (- ((z + 2 ^ 63) / 2 ^ 64)). unfold wrap64.
  pose proof (Z.div_mod (z + 2 ^ 63) (2 ^ 64) ltac:(lia)). lia.
Qed.

Lemma wrap64_add_turns (z k : Z) : wrap64 (z + k * 2 ^ 64) = wrap64 z.
Proof.
  unfold wrap64. f_equal.
  replace (z + k * 2 ^ 64 + 2 ^ 63) with (z + 2 ^ 63 + k * 2 ^ 64) by lia.
  apply Z_mod_plus_full.
Qed.

Lemma wrap64_idem (z : Z) : wrap64 (wrap64 z) = wrap64 z.
Proof. apply wrap64_small, wrap64_range. Qed.

Lemma fold_left_wrap64 (xs : list Z) (a : Z) :
  fold_left (fun acc x => wrap64 (acc + x)) xs (wrap64 a)
  = wrap64 (a + exact_sum xs).
Proof.
  revert a. induction xs as [|x xs IH]; intros a; simpl.
  - f_equal. unfold exact_sum. simpl. lia.
  - rewrite wrap64_add_l, IH. f_equal. unfold exact_sum. simpl. lia.
Qed.

(** The sum of an int64 column is the exact sum, wrapped once. *)
Lemma series_sum_wrap (xs : list Z) : series_sum xs = wrap64 (exact_sum xs).
Proof.
  unfold series_sum. change 0 with (wrap64 0) at 1.
  by rewrite fold_left_wrap64.
Qed.

Lemma series_sum_cons (x : Z) (xs : list Z) :
  series_sum (x :: xs) = wrap64 (x + series_sum xs).
Proof.
  rewrite !series_sum_wrap, wrap64_add_r. f_equal.
Qed.

Lemma group_frequency u df :
  series_count (order_id <$> group_of u df) = counted_frequency u df.
Proof.
  unfold series_count, group_of.
  induction df as [|o df IH]; [done |].
  rewrite filter_cons. simpl counted_frequency.
  destruct (decide (user_id o = u)) as [Hu | Hu].
  - rewrite fmap_cons, filter_cons.
    destruct (decide (is_Some (order_id o))) as [Hid | Hid].
    + rewrite decide_True by done. simpl length.
      rewrite Nat2Z.inj_succ, IH. lia.
    + rewrite decide_False by tauto. rewrite IH. lia.
  - rewrite decide_False by tauto. rewrite IH. lia.
Qed.

Lemma counted_frequency_all_present u df :
  (forall o, o ∈ df -> is_Some (order_id o)) ->
  counted_frequency u df = spec_frequency u df.
Proof.
  induction df as [|o df IH]; intros Hall; [done |]. simpl.
  rewrite IH by (intros o' Ho'; apply Hall; by apply list_elem_of_further).
  pose proof (Hall o (list_elem_of_here _ _)) as Ho.
  destruct (decide (user_id o = u)).
  - by rewrite decide_True.
  - by rewrite decide_False by tauto.
Qed.

Lemma group_exact_sum u df :
  exact_sum (order_value <$> group_of u df) = spec_monetary u df.
Proof.
  unfold group_of, exact_sum.
  induction df as [|o df IH]; [done |].
  rewrite filter_cons. simpl spec_monetary.
  case_decide; rewrite ?fmap_cons, ?foldr_cons, IH; lia.
Qed.

Lemma group_monetary u df :
  series_sum (order_value <$> group_of u df) = wrap64 (spec_monetary u df).
Proof. by rewrite series_sum_wrap, group_exact_sum. Qed.

(** C2, as the code has it: the aggregator returns one row per distinct
    customer identifier of the input; the row's Recency is the whole
    number of days from the customer's latest order to the snapshot
    date; its Frequency is the number of the customer's rows whose
    order_id is not blank, which is the number of the customer's rows
    when no order_id is blank; its Monetary is the sum of the customer's
    order values in 64-bit arithmetic, the discount left out, which is
    the plain sum when that fits in 64 bits. *)
Theorem rfm_one_row_per_customer (snapshot_date : Z) (df : list OrderRecord) :
  NoDup (rfm_user_id <$> rfm snapshot_date df) /\
  (forall u, u ∈ rfm_user_id <$> rfm snapshot_date df <-> u ∈ user_id <$> df) /\
  (forall c, c ∈ rfm snapshot_date df ->
     (exists o, o ∈ df /\ user_id o = rfm_user_id c /\
        (forall o', o' ∈ df -> user_id o' = rfm_user_id c ->
           order_date o' <= order_date o) /\
        Recency c = days (snapshot_date - order_date o) /\
        ns_per_day * Recency c <= snapshot_date - order_date o
          < ns_per_day * (Recency c + 1)) /\
     Frequency c = counted_frequency (rfm_user_id c) df /\
     ((forall o, o ∈ df -> is_Some (order_id o)) ->
      Frequency c = spec_frequency (rfm_user_id c) df) /\
     Monetary c = wrap64 (spec_monetary (rfm_user_id c) df) /\
     (- 2 ^ 63 <= spec_monetary (rfm_user_id c) df < 2 ^ 63 ->
      Monetary c = spec_monetary (rfm_user_id c) df)).
Proof.
  rewrite rfm_user_ids. split; [apply NoDup_group_keys |].
  split; [intros u; apply elem_of_group_keys |].
  intros c [Hu ->]%elem_of_rfm. simpl.
  split; [| split; [apply group_frequency |]].
  - destruct (latest_order _ _ Hu) as (o & Ho & Hid & Hdate & Hmax).
    exists o. rewrite <- Hdate. repeat split; auto.
    + unfold days. apply Z.mul_div_le. done.
    + unfold days.
      pose proof (Z.mod_pos_bound (snapshot_date - order_date o) ns_per_day
                    eq_refl) as Hmod.
      pose proof (Z.div_mod (snapshot_date - order_date o) ns_per_day) as Hdm.
      unfold ns_per_day in *. lia.
  - split; [| split].
    + intros Hall. rewrite group_frequency.
      by apply counted_frequency_all_present.
    + apply group_monetary.
    + intros Hfit. rewrite group_monetary. by apply wrap64_small.
Qed.

(** C2, as the claim states it, fails: a row with a blank order_id is not
    counted (Frequency 1 for two rows), and two orders of 2^62 give the
    Monetary -2^63 instead of their sum. *)
Lemma rfm_blank_id_and_overflow :
  rfm 0 orders_blank_id = [mkMetrics 1 0 1 12] /\
  spec_frequency 1 orders_blank_id = 2 /\
  rfm 0 orders_overflow = [mkMetrics 1 0 2 (- 2 ^ 63)] /\
  spec_monetary 1 orders_overflow = 2 ^ 63.
Proof. by vm_compute. Qed.

(** C7, as the code has it: the aggregator has no snapshot check; for a
    customer whose latest order is after the snapshot date it returns a
    row with a negative Recency, the floor of the negative day count. *)
Theorem rfm_negative_recency (snapshot_date : Z) (df : list OrderRecord)
    (o : OrderRecord) :
  o ∈ df ->
  (forall o', o' ∈ df -> user_id o' = user_id o ->
     order_date o' <= order_date o) ->
  snapshot_date < order_date o ->
  exists c, c ∈ rfm snapshot_date df /\
    rfm_user_id c = user_id o /\
    Recency c = days (snapshot_date - order_date o) /\
    Recency c < 0.
Proof.
  intros Ho Hmax Hlt.
  assert (Hu : user_id o ∈ user_id <$> df).
  { apply list_elem_of_fmap. eauto. }
  exists (agg_group snapshot_date df (user_id o)).
  split; [by apply elem_of_rfm |]. split; [done |].
  destruct (latest_order _ _ Hu) as (o1 & Ho1 & Hid & Hdate & Hmax1).
  assert (Heq : order_date o1 = order_date o).
  { specialize (Hmax _ Ho1 Hid). specialize (Hmax1 _ Ho eq_refl). lia. }
  simpl. rewrite <- Hdate, Heq. split; [done |].
  unfold days. apply Z.div_lt_upper_bound; [done | lia].
Qed.

Lemma rfm_negative_recency_witness :
  exists c, c ∈ rfm 0 [mkOrder 7 (Some 1) ns_per_day EmptyString 250 0] /\
    rfm_user_id c = 7 /\
    Recency c = days (0 - ns_per_day) /\
    Recency c < 0.
Proof.
  apply (rfm_negative_recency 0 [mkOrder 7 (Some 1) ns_per_day EmptyString 250 0]
           (mkOrder 7 (Some 1) ns_per_day EmptyString 250 0)).
  - apply list_elem_of_here.
  - intros o' Ho' _. apply list_elem_of_singleton in Ho'. subst o'. simpl. lia.
  - simpl. reflexivity.
Defined.

(** C7, as the claim states it, fails: with the snapshot one day before
    the only order the aggregator returns the Recency -1. *)
Lemma rfm_snapshot_before_order :
  rfm 0 [mkOrder 7 (Some 1) ns_per_day EmptyString 250 0]
  = [mkMetrics 7 (-1) 1 250].
Proof. vm_compute. reflexivity. Qed.

(** ** Score columns and row assembly *)

Lemma astype_int_Ok col l : astype_int col = Ok l -> col = Some <$> l.
Proof.
  revert l. induction col as [|[v|] col IH]; intros l H; simpl in H.
  - by inversion H.
  - inv_bind H. inversion H; subst. simpl. f_equal. by apply IH.
  - discriminate.
Qed.

Lemma qcut_Ok xs q labels col :
  qcut xs q labels = Ok col ->
  NoDup (quantile_edges q xs) /\
  col = cut_label q (quantile_edges q xs) labels <$> xs.
Proof.
  unfold qcut. case_decide as Hnd; [| discriminate].
  intros Heq. inversion Heq. done.
Qed.

Lemma score_column_Ok xs labels l :
  score_column xs labels = Ok l ->
  NoDup (quantile_edges 5 xs) /\
  Some <$> l = cut_label 5 (quantile_edges 5 xs) labels <$> xs.
Proof.
  unfold score_column. intros H. inv_bind H.
  apply qcut_Ok in Ha as [Hnd ->]. apply astype_int_Ok in H.
  split; [done | by rewrite H].
Qed.

Lemma score_column_length xs labels l :
  score_column xs labels = Ok l -> length l = length xs.
Proof.
  intros [_ H]%score_column_Ok.
  apply (f_equal length) in H. by rewrite !length_fmap in H.
Qed.

Lemma length_rank_first xs : length (rank_first xs) = length xs.
Proof. unfold rank_first. apply length_imap. Qed.

Lemma assemble_columns cms rs fs ms :
  length rs = length cms -> length fs = length cms ->
  length ms = length cms ->
  metrics <$> assemble cms rs fs ms = cms /\
  R_Score <$> assemble cms rs fs ms = rs /\
  F_Score <$> assemble cms rs fs ms = fs /\
  M_Score <$> assemble cms rs fs ms = ms.
Proof.
  revert rs fs ms.
  induction cms as [|c cms IH]; intros [|r rs] [|f fs] [|m ms] Hr Hf Hm;
    simpl in Hr, Hf, Hm; try done.
  cbn [assemble]. rewrite !fmap_cons. cbn [metrics R_Score F_Score M_Score].
  destruct (IH rs fs ms) as (-> & -> & -> & ->); auto with lia.
Qed.

Lemma classify_Ok cms rows :
  classify cms = Ok rows ->
  exists rs fs ms,
    R_Score_column cms = Ok rs /\
    F_Score_column cms = Ok fs /\
    M_Score_column cms = Ok ms /\
    rows = assemble cms rs fs ms /\
    metrics <$> rows = cms /\
    R_Score <$> rows = rs /\ F_Score <$> rows = fs /\ M_Score <$> rows = ms.
Proof.
  unfold classify. intros H.
  inv_bind H. rename a into rs, Ha into Hrs.
  inv_bind H. rename a into fs, Ha into Hfs.
  inv_bind H. rename a into ms, Ha into Hms.
  inversion H as [Hrows]. exists rs, fs, ms.
  repeat (split; [done |]).
  apply assemble_columns.
  - apply score_column_length in Hrs. by rewrite length_fmap in Hrs.
  - apply score_column_length in Hfs.
    by rewrite length_rank_first, length_fmap in Hfs.
  - apply score_column_length in Hms.
    by rewrite length_rank_first, length_fmap in Hms.
Qed.

Lemma run_Ok snapshot_date df rows k :
  run snapshot_date df = Ok (rows, k) <->
  classify (rfm snapshot_date df) = Ok rows /\ k = kpis rows.
Proof.
  unfold run. destruct (classify (rfm snapshot_date df)) as [rows'|e]; simpl.
  - split; [intros H; by inversion H | intros [H ->]; by inversion H].
  - split; [discriminate | intros [? _]; discriminate].
Qed.

(** ** KPI roll-up *)

Lemma revenue_where_exact p rows :
  revenue_where p rows = wrap64 (exact_revenue_where p rows).
Proof. unfold revenue_where, exact_revenue_where. apply series_sum_wrap. Qed.

Lemma exact_revenue_where_cons p row rows :
  exact_revenue_where p (row :: rows)
  = (if p (Segment row) then Monetary (metrics row) else 0)
    + exact_revenue_where p rows.
Proof.
  unfold exact_revenue_where, exact_sum. rewrite filter_cons.
  destruct (p (Segment row)); case_decide; try done.
Qed.

Lemma revenue_where_cons p row rows :
  revenue_where p (row :: rows)
  = wrap64 ((if p (Segment row) then Monetary (metrics row) else 0)
            + revenue_where p rows).
Proof.
  rewrite !revenue_where_exact, exact_revenue_where_cons.
  by rewrite wrap64_add_r.
Qed.

Lemma total_revenue_exact rows :
  total_revenue (kpis rows) = wrap64 (exact_sum (Monetary ∘ metrics <$> rows)).
Proof. simpl. apply series_sum_wrap. Qed.

Lemma exact_revenue_partition rows :
  exact_revenue_where (is_label Champion) rows
  + (exact_revenue_where (is_label Loyal) rows
     + exact_revenue_where (is_label FenceSitter) rows)
  + exact_revenue_where (isin [AtRisk; Churned]) rows
  = exact_sum (Monetary ∘ metrics <$> rows).
Proof.
  induction rows as [|row rows IH]; [done |].
  rewrite !exact_revenue_where_cons, fmap_cons.
  unfold exact_sum in *. rewrite foldr_cons, <- IH.
  destruct (Segment row); vm_compute is_label; vm_compute isin;
    simpl; lia.
Qed.

Lemma revenue_partition rows :
  wrap64 (revenue_where (is_label Champion) rows
          + (segment_revenue Loyal rows + segment_revenue FenceSitter rows)
          + revenue_where (isin [AtRisk; Churned]) rows)
  = series_sum (Monetary ∘ metrics <$> rows).
Proof.
  unfold segment_revenue.
  rewrite series_sum_wrap, <- exact_revenue_partition, !revenue_where_exact.
  destruct (wrap64_turns (exact_revenue_where (is_label Champion) rows))
    as [k1 ->].
  destruct (wrap64_turns (exact_revenue_where (is_label Loyal) rows))
    as [k2 ->].
  destruct (wrap64_turns (exact_revenue_where (is_label FenceSitter) rows))
    as [k3 ->].
  destruct (wrap64_turns (exact_revenue_where (isin [AtRisk; Churned]) rows))
    as [k4 ->].
  etransitivity; [| apply (wrap64_add_turns _ (k1 + k2 + k3 + k4))].
  f_equal. lia.
Qed.

Lemma segment_exclusive (x : SegmentLabel) :
  (if is_label Champion x then 1 else 0)
  + (if is_label Loyal x then 1 else 0)
  + (if is_label FenceSitter x then 1 else 0)
  + (if isin [AtRisk; Churned] x then 1 else 0) = 1.
Proof. by destruct x. Qed.

Lemma exact_revenue_where_bounds p rows :
  Forall (fun row => 0 <= Monetary (metrics row)) rows ->
  0 <= exact_revenue_where p rows <= exact_sum (Monetary ∘ metrics <$> rows).
Proof.
  induction 1 as [|row rows Hrow Hrows IH]; [done |].
  rewrite exact_revenue_where_cons, fmap_cons. unfold exact_sum in *.
  rewrite foldr_cons. simpl. destruct (p (Segment row)); lia.
Qed.

(** C5, as the code has it: after a successful run every customer of the
    input has exactly one row in the segment mapping, each row enters
    exactly one of the four segment sums, and every KPI is the sum of
    the Monetary values of its rows in 64-bit arithmetic; so the
    Champion, Loyal, Fence Sitter and At Risk or Churned revenues add up
    to the total revenue in 64-bit arithmetic, and exactly when no
    Monetary is negative and the total fits in 64 bits. *)
Theorem segments_partition_revenue (snapshot_date : Z)
    (df : list OrderRecord) (rows : list ScoredRow) (k : KPI) :
  run snapshot_date df = Ok (rows, k) ->
  NoDup (rfm_user_id ∘ metrics <$> rows) /\
  (forall u, u ∈ rfm_user_id ∘ metrics <$> rows <-> u ∈ user_id <$> df) /\
  (forall row, row ∈ rows ->
     (if is_label Champion (Segment row) then 1 else 0)
     + (if is_label Loyal (Segment row) then 1 else 0)
     + (if is_label FenceSitter (Segment row) then 1 else 0)
     + (if isin [AtRisk; Churned] (Segment row) then 1 else 0) = 1) /\
  total_revenue k = wrap64 (exact_sum (Monetary ∘ metrics <$> rows)) /\
  champion_revenue k = wrap64 (exact_revenue_where (is_label Champion) rows) /\
  at_risk_revenue k
  = wrap64 (exact_revenue_where (isin [AtRisk; Churned]) rows) /\
  wrap64 (champion_revenue k
          + (segment_revenue Loyal rows + segment_revenue FenceSitter rows)
          + at_risk_revenue k) = total_revenue k /\
  (Forall (fun row => 0 <= Monetary (metrics row)) rows ->
   exact_sum (Monetary ∘ metrics <$> rows) < 2 ^ 63 ->
   champion_revenue k
     + (segment_revenue Loyal rows + segment_revenue FenceSitter rows)
     + at_risk_revenue k = total_revenue k).
Proof.
  intros [Hc ->]%run_Ok.
  apply classify_Ok in Hc as (rs & fs & ms & _ & _ & _ & _ & Hm & _).
  rewrite list_fmap_compose, Hm, rfm_user_ids.
  split; [apply NoDup_group_keys |].
  split; [intros u; apply elem_of_group_keys |].
  split; [intros row _; apply segment_exclusive |].
  split; [apply total_revenue_exact |].
  split; [apply revenue_where_exact |].
  split; [apply revenue_where_exact |].
  split; [apply revenue_partition |].
  intros Hpos Hfit. simpl. unfold segment_revenue.
  rewrite series_sum_wrap, !revenue_where_exact.
  pose proof (exact_revenue_where_bounds (is_label Champion) rows Hpos).
  pose proof (exact_revenue_where_bounds (is_label Loyal) rows Hpos).
  pose proof (exact_revenue_where_bounds (is_label FenceSitter) rows Hpos).
  pose proof (exact_revenue_where_bounds (isin [AtRisk; Churned]) rows Hpos).
  pose proof (exact_revenue_partition rows).
  rewrite !wrap64_small by lia. done.
Qed.

(** C5 on five customers: the run succeeds and the sums partition. *)
Lemma segments_partition_revenue_witness :
  exists rows k, run (20 * ns_per_day) orders_tied_recency = Ok (rows, k) /\
    wrap64 (champion_revenue k
            + (segment_revenue Loyal rows + segment_revenue FenceSitter rows)
            + at_risk_revenue k) = total_revenue k.
Proof.
  destruct (run (20 * ns_per_day) orders_tied_recency) as [[rows k]|e] eqn:E;
    [| vm_compute in E; discriminate].
  exists rows, k. split; [reflexivity |].
  apply (segments_partition_revenue _ _ _ _ E).
Defined.

(** C5, as the claim states it, fails on decimal order values: five
    customers with orders of 0.1, 0.2, 0.3, 0.6 and 0.7 are classified
    Churned, At Risk, Fence Sitter, Champion and Champion, and the three
    segment revenues then add up to a float other than the total. *)
Lemma decimal_revenue_does_not_partition :
  (exists rows k,
     run (4 * ns_per_day) orders_tenths = Ok (rows, k) /\
     Segment <$> rows = fst <$> table_tenths) /\
  PrimFloat.eqb
    (float64_revenue_where (is_label Champion) table_tenths
     + (float64_revenue_where (is_label Loyal) table_tenths
        + float64_revenue_where (is_label FenceSitter) table_tenths)
     + float64_revenue_where (isin [AtRisk; Churned]) table_tenths)%float
    (float64_total_revenue table_tenths) = false.
Proof.
  split.
  - destruct (run (4 * ns_per_day) orders_tenths) as [[rows k]|e] eqn:E;
      vm_compute in E; [| discriminate].
    exists rows, k. inversion E. by vm_compute.
  - by vm_compute.
Qed.

(** ** Revenue dependency *)

Lemma inject_Z_nonzero (t : Z) : t <> 0 -> ~ (inject_Z t == 0)%Q.
Proof. unfold Qeq. simpl. lia. Qed.

Lemma true_divide_zero (c : Z) :
  true_divide c 0 = NaN \/ true_divide c 0 = PosInf \/ true_divide c 0 = NegInf.
Proof.
  unfold true_divide. simpl.
  destruct (c =? 0), (0 <? c); auto.
Qed.

Lemma true_divide_finite (c t : Z) :
  t <> 0 ->
  exists v, true_divide c t = Finite v /\ (v * inject_Z t == inject_Z c)%Q.
Proof.
  intros Ht. unfold true_divide.
  destruct (Z.eqb_spec t 0) as [|_]; [done |].
  eexists. split; [reflexivity |].
  rewrite Qmult_comm. apply Qmult_div_r. by apply inject_Z_nonzero.
Qed.

Lemma revenue_where_bounds p rows :
  Forall (fun row => 0 <= Monetary (metrics row)) rows ->
  exact_sum (Monetary ∘ metrics <$> rows) < 2 ^ 63 ->
  0 <= revenue_where p rows <= series_sum (Monetary ∘ metrics <$> rows).
Proof.
  intros Hpos Hfit.
  pose proof (exact_revenue_where_bounds p rows Hpos).
  rewrite series_sum_wrap, revenue_where_exact.
  rewrite !wrap64_small by lia. done.
Qed.

(** C6, as the code has it: the KPI stage raises nothing.  Whenever the
    population is classified the run returns its KPIs; with a total
    revenue of zero the dependency ratio is a non-finite float ([nan]
    when no Monetary is negative and their sum fits in 64 bits, and then
    the high-dependency flag is off), and with a positive total it is the
    quotient of champion revenue by total revenue. *)
Theorem revenue_dependency_total (snapshot_date : Z) (df : list OrderRecord)
    (rows : list ScoredRow) :
  classify (rfm snapshot_date df) = Ok rows ->
  let k := kpis rows in
  run snapshot_date df = Ok (rows, k) /\
  (total_revenue k = 0 ->
     (revenue_dependency k = NaN \/ revenue_dependency k = PosInf
      \/ revenue_dependency k = NegInf) /\
     (Forall (fun row => 0 <= Monetary (metrics row)) rows ->
      exact_sum (Monetary ∘ metrics <$> rows) < 2 ^ 63 ->
      revenue_dependency k = NaN /\ high_dependency k = false)) /\
  (0 < total_revenue k ->
     exists v, revenue_dependency k = Finite v /\
       (v * inject_Z (total_revenue k) == inject_Z (champion_revenue k))%Q).
Proof.
  intros Hc k. split; [by apply run_Ok |]. subst k. simpl. split.
  - intros Ht. rewrite Ht. split; [apply true_divide_zero |].
    intros Hpos Hfit.
    pose proof (revenue_where_bounds (is_label Champion) rows Hpos Hfit)
      as Hb.
    rewrite Ht in Hb.
    assert (Hz : revenue_where (is_label Champion) rows = 0) by lia.
    by rewrite Hz.
  - intros Ht. apply true_divide_finite. lia.
Qed.

Lemma revenue_dependency_total_witness :
  exists rows,
    run (20 * ns_per_day) orders_tied_recency = Ok (rows, kpis rows) /\
    exists v, revenue_dependency (kpis rows) = Finite v /\
      (v * inject_Z (total_revenue (kpis rows))
       == inject_Z (champion_revenue (kpis rows)))%Q.
Proof.
  destruct (classify (rfm (20 * ns_per_day) orders_tied_recency))
    as [rows|e] eqn:E; [| vm_compute in E; discriminate].
  exists rows.
  destruct (revenue_dependency_total _ _ _ E) as (Hrun & _ & Hpos).
  split; [exact Hrun |]. apply Hpos.
  vm_compute in E. inversion E. vm_compute. reflexivity.
Defined.

(** C6, as the claim states it, fails: on five customers whose orders all
    have value zero the run raises nothing; it returns a total revenue of
    zero and the dependency ratio [nan]. *)
Lemma zero_revenue_run_succeeds :
  exists rows k,
    run (20 * ns_per_day) orders_zero_value = Ok (rows, k) /\
    total_revenue k = 0 /\
    revenue_dependency k = NaN /\
    high_dependency k = false.
Proof.
  destruct (run (20 * ns_per_day) orders_zero_value) as [[rows k]|e] eqn:E;
    vm_compute in E; [| discriminate].
  exists rows, k. inversion E. by vm_compute.
Qed.

(** When the Monetary values overflow, a total of zero can come with a
    champion revenue that is not zero: the ratio is then infinite. *)
Example wrapped_total_gives_infinity :
  exists rows k,
    run (4 * ns_per_day) orders_wrap_to_zero = Ok (rows, k) /\
    Forall (fun row => 0 <= Monetary (metrics row)) rows /\
    total_revenue k = 0 /\
    revenue_dependency k = NegInf.
Proof.
  destruct (run (4 * ns_per_day) orders_wrap_to_zero) as [[rows k]|e] eqn:E;
    vm_compute in E; [| discriminate].
  exists rows, k. inversion E. split; [reflexivity |].
  split; [| by vm_compute].
  repeat constructor; by vm_compute.
Qed.

(** ** Unused fields *)

Lemma group_of_scrub u df : group_of u (scrub <$> df) = scrub <$> group_of u df.
Proof.
  unfold group_of. induction df as [|o df IH]; [done |].
  rewrite fmap_cons, !filter_cons. simpl user_id.
  case_decide; by rewrite IH.
Qed.

Lemma rfm_scrub snapshot_date df :
  rfm snapshot_date (scrub <$> df) = rfm snapshot_date df.
Proof.
  unfold rfm, group_keys.
  rewrite <- (list_fmap_compose scrub user_id).
  apply list_fmap_ext. intros _ u _.
  unfold agg_group. rewrite group_of_scrub.
  by rewrite <- !list_fmap_compose.
Qed.

(** C10: two data sets that agree on everything but [product_name] and
    [discount_given] give the same customer metrics, scores, segments and
    KPIs. *)
Theorem unused_fields_do_not_interfere (snapshot_date : Z)
    (df1 df2 : list OrderRecord) :
  scrub <$> df1 = scrub <$> df2 ->
  rfm snapshot_date df1 = rfm snapshot_date df2 /\
  classify (rfm snapshot_date df1) = classify (rfm snapshot_date df2) /\
  run snapshot_date df1 = run snapshot_date df2.
Proof.
  intros H.
  assert (Hrfm : rfm snapshot_date df1 = rfm snapshot_date df2).
  { by rewrite <- (rfm_scrub _ df1), <- (rfm_scrub _ df2), H. }
  unfold run. by rewrite Hrfm.
Qed.

Lemma unused_fields_do_not_interfere_witness :
  run 0 [mkOrder 1 (Some 1) 0 "tea" 40 5; mkOrder 2 (Some 2) 0 "rice" 60 0]
  = run 0 [mkOrder 1 (Some 1) 0 "dal" 40 0; mkOrder 2 (Some 2) 0 "naan" 60 9].
Proof.
  apply (unused_fields_do_not_interfere 0
           [mkOrder 1 (Some 1) 0 "tea" 40 5; mkOrder 2 (Some 2) 0 "rice" 60 0]
           [mkOrder 1 (Some 1) 0 "dal" 40 0; mkOrder 2 (Some 2) 0 "naan" 60 9]).
  reflexivity.
Defined.

(** ** Order statistics of a column *)

Lemma StronglySorted_lookup_le (l : list Z) i j a b :
  StronglySorted Z.le l ->
  l !! i = Some a -> l !! j = Some b -> (i <= j)%nat -> a <= b.
Proof.
  intros Hs. revert i j.
  induction Hs as [|x l Hs IH Hall]; intros i j Hi Hj Hij.
  - by rewrite lookup_nil in Hi.
  - destruct i as [|i], j as [|j]; simpl in Hi, Hj; try lia.
    + assert (a = b) by congruence. lia.
    + inversion Hi; subst a. rewrite Forall_lookup in Hall. eauto.
    + eapply IH; eauto with lia.
Qed.

Lemma elem_of_perm (l1 l2 : list Z) x : l1 ≡ₚ l2 -> x ∈ l1 -> x ∈ l2.
Proof. intros H. by rewrite H. Qed.

Section sorted_column.
Variable xs : list Z.

Lemma sorted_column_perm : merge_sort Z.le xs ≡ₚ xs.
Proof. apply merge_sort_Permutation. Qed.

Lemma sorted_column_length : length (merge_sort Z.le xs) = length xs.
Proof. by rewrite sorted_column_perm. Qed.

Lemma sorted_column_lookup i :
  (i < length xs)%nat ->
  merge_sort Z.le xs !! i = Some (merge_sort Z.le xs !!! i).
Proof.
  intros Hi. apply list_lookup_lookup_total_lt.
  by rewrite sorted_column_length.
Qed.

Lemma sorted_column_elem i :
  (i < length xs)%nat -> merge_sort Z.le xs !!! i ∈ xs.
Proof.
  intros Hi. eapply elem_of_perm; [apply sorted_column_perm |].
  eapply list_elem_of_lookup_2, sorted_column_lookup, Hi.
Qed.

Lemma sorted_column_le i j :
  (i <= j)%nat -> (j < length xs)%nat ->
  merge_sort Z.le xs !!! i <= merge_sort Z.le xs !!! j.
Proof.
  intros Hij Hj.
  eapply (StronglySorted_lookup_le (merge_sort Z.le xs) i j);
    [ apply StronglySorted_merge_sort; apply _
    | apply sorted_column_lookup; lia
    | apply sorted_column_lookup; lia
    | done ].
Qed.

Lemma sorted_column_lt i j :
  NoDup xs -> (i < j)%nat -> (j < length xs)%nat ->
  merge_sort Z.le xs !!! i < merge_sort Z.le xs !!! j.
Proof.
  intros Hnd Hij Hj.
  pose proof (sorted_column_le i j ltac:(lia) Hj) as Hle.
  assert (Hne : merge_sort Z.le xs !!! i <> merge_sort Z.le xs !!! j);
    [| lia].
  intros Heq.
  rewrite <- sorted_column_perm in Hnd.
  pose proof (sorted_column_lookup i ltac:(lia)) as Hi.
  pose proof (sorted_column_lookup j Hj) as Hj'.
  rewrite <- Heq in Hj'.
  pose proof (proj1 (NoDup_alt _) Hnd i j _ Hi Hj'). lia.
Qed.

(** The first and the last order statistic bound the column. *)
Lemma sorted_column_bounds x :
  x ∈ xs ->
  merge_sort Z.le xs !!! 0%nat <= x <= merge_sort Z.le xs !!! (length xs - 1)%nat.
Proof.
  intros Hx. rewrite <- sorted_column_perm in Hx.
  apply list_elem_of_lookup in Hx as [i Hi].
  pose proof (lookup_lt_Some _ _ _ Hi) as Hlt.
  rewrite sorted_column_length in Hlt.
  assert (x = merge_sort Z.le xs !!! i) as ->
    by (symmetry; by apply list_lookup_total_correct).
  split; apply sorted_column_le; lia.
Qed.

End sorted_column.

(** ** Quantile edges *)

Section quantile_edges.
Variable xs : list Z.

Lemma interpolate_unfold p :
  interpolate 5 (merge_sort Z.le xs) p
  = 5 * (merge_sort Z.le xs !!! (p / 5)%nat)
    + Z.of_nat (p mod 5)
      * (merge_sort Z.le xs !!! Nat.min (p / 5 + 1) (length xs - 1)
         - merge_sort Z.le xs !!! (p / 5)%nat).
Proof. unfold interpolate. by rewrite sorted_column_length. Qed.

Lemma interpolate_mono p p' :
  (p <= p')%nat -> (p' <= 5 * (length xs - 1))%nat -> (1 <= length xs)%nat ->
  interpolate 5 (merge_sort Z.le xs) p
  <= interpolate 5 (merge_sort Z.le xs) p'.
Proof.
  intros Hpp Hp' Hn. rewrite !interpolate_unfold.
  pose proof (Nat.div_mod_eq p 5) as Hp.
  pose proof (Nat.mod_upper_bound p 5 ltac:(lia)) as Hfr.
  pose proof (Nat.div_mod_eq p' 5) as Hq.
  pose proof (Nat.mod_upper_bound p' 5 ltac:(lia)) as Hfr'.
  set (lo := (p / 5)%nat) in *. set (fr := (p mod 5)%nat) in *.
  set (lo' := (p' / 5)%nat) in *. set (fr' := (p' mod 5)%nat) in *.
  pose proof (sorted_column_le xs lo (Nat.min (lo + 1) (length xs - 1))
                ltac:(lia) ltac:(lia)) as H1.
  pose proof (sorted_column_le xs lo' (Nat.min (lo' + 1) (length xs - 1))
                ltac:(lia) ltac:(lia)) as H2.
  destruct (decide (lo = lo')) as [<- | Hne].
  - nia.
  - pose proof (sorted_column_le xs (Nat.min (lo + 1) (length xs - 1)) lo'
                  ltac:(lia) ltac:(lia)) as H3.
    nia.
Qed.

Lemma interpolate_strict p p' :
  NoDup xs -> (p < p')%nat -> (p' <= 5 * (length xs - 1))%nat ->
  interpolate 5 (merge_sort Z.le xs) p
  < interpolate 5 (merge_sort Z.le xs) p'.
Proof.
  intros Hnd Hpp Hp'. rewrite !interpolate_unfold.
  pose proof (Nat.div_mod_eq p 5) as Hp.
  pose proof (Nat.mod_upper_bound p 5 ltac:(lia)) as Hfr.
  pose proof (Nat.div_mod_eq p' 5) as Hq.
  pose proof (Nat.mod_upper_bound p' 5 ltac:(lia)) as Hfr'.
  set (lo := (p / 5)%nat) in *. set (fr := (p mod 5)%nat) in *.
  set (lo' := (p' / 5)%nat) in *. set (fr' := (p' mod 5)%nat) in *.
  assert (Hlo : (lo + 1 <= length xs - 1)%nat) by lia.
  rewrite (Nat.min_l (lo + 1)) by lia.
  pose proof (sorted_column_lt xs lo (lo + 1) Hnd ltac:(lia) ltac:(lia))
    as H1.
  pose proof (sorted_column_le xs lo' (Nat.min (lo' + 1) (length xs - 1))
                ltac:(lia) ltac:(lia)) as H2.
  destruct (decide (lo = lo')) as [<- | Hne].
  - rewrite (Nat.min_l (lo + 1)) by lia. nia.
  - pose proof (sorted_column_le xs (lo + 1) lo' ltac:(lia) ltac:(lia))
      as H3.
    nia.
Qed.

(** With pairwise distinct cells, the order statistics below the value
    at a position are those of index at most the position's floor. *)
Lemma interpolate_above j p :
  NoDup xs -> (j < length xs)%nat -> (p <= 5 * (length xs - 1))%nat ->
  5 * (merge_sort Z.le xs !!! j) <= interpolate 5 (merge_sort Z.le xs) p
  <-> (j <= p / 5)%nat.
Proof.
  intros Hnd Hj Hp'. rewrite interpolate_unfold.
  pose proof (Nat.div_mod_eq p 5) as Hp.
  pose proof (Nat.mod_upper_bound p 5 ltac:(lia)) as Hfr.
  set (lo := (p / 5)%nat) in *. set (fr := (p mod 5)%nat) in *.
  pose proof (sorted_column_le xs lo (Nat.min (lo + 1) (length xs - 1))
                ltac:(lia) ltac:(lia)) as H1.
  split.
  - intros Hle. destruct (decide (j <= lo)%nat) as [|Hgt]; [done |].
    exfalso.
    rewrite (Nat.min_l (lo + 1)) in * by lia.
    pose proof (sorted_column_lt xs lo (lo + 1) Hnd ltac:(lia) ltac:(lia)).
    pose proof (sorted_column_le xs (lo + 1) j ltac:(lia) ltac:(lia)).
    nia.
  - intros Hle.
    pose proof (sorted_column_le xs j lo ltac:(lia) ltac:(lia)).
    nia.
Qed.

Lemma quantile_edge_unfold k :
  quantile_edge 5 (merge_sort Z.le xs) k
  = interpolate 5 (merge_sort Z.le xs) ((length xs - 1) * k).
Proof. unfold quantile_edge. by rewrite sorted_column_length. Qed.

Lemma quantile_edges_unfold :
  quantile_edges 5 xs
  = (fun k => interpolate 5 (merge_sort Z.le xs) ((length xs - 1) * k))
      <$> [0; 1; 2; 3; 4; 5]%nat.
Proof.
  unfold quantile_edges. change (seq 0 6) with [0; 1; 2; 3; 4; 5]%nat.
  apply list_fmap_ext. intros _ k _. apply quantile_edge_unfold.
Qed.

Lemma quantile_edge_first :
  interpolate 5 (merge_sort Z.le xs) ((length xs - 1) * 0)
  = 5 * (merge_sort Z.le xs !!! 0%nat).
Proof.
  rewrite interpolate_unfold, Nat.mul_0_r.
  change (0 / 5)%nat with 0%nat. change (0 mod 5)%nat with 0%nat. lia.
Qed.

Lemma quantile_edge_last :
  interpolate 5 (merge_sort Z.le xs) ((length xs - 1) * 5)
  = 5 * (merge_sort Z.le xs !!! (length xs - 1)%nat).
Proof.
  rewrite interpolate_unfold.
  rewrite Nat.div_mul by lia. rewrite Nat.Div0.mod_mul. lia.
Qed.

End quantile_edges.

(** ** Bins *)

(** The bins between six increasing edges, read cumulatively. *)
Lemma bin_id_increasing e0 e1 e2 e3 e4 e5 x :
  e0 < e1 -> e1 < e2 -> e2 < e3 -> e3 < e4 -> e4 < e5 ->
  e0 <= 5 * x <= e5 ->
  let b := bin_id 5 [e0; e1; e2; e3; e4; e5] x in
  (1 <= b <= 5)%nat /\
  ((b <= 1)%nat <-> 5 * x <= e1) /\
  ((b <= 2)%nat <-> 5 * x <= e2) /\
  ((b <= 3)%nat <-> 5 * x <= e3) /\
  ((b <= 4)%nat <-> 5 * x <= e4).
Proof.
  intros H01 H12 H23 H34 H45 Hx. unfold bin_id. simpl hd.
  change (Z.of_nat 5) with 5.
  destruct (Z.eqb_spec (5 * x) e0) as [Heq | Hne]; [lia |].
  simpl searchsorted_left.
  repeat match goal with
  | |- context [?a <? ?b] => destruct (Z.ltb_spec a b)
  end; lia.
Qed.

Section bins.
Variable xs : list Z.

Local Abbreviation edge k :=
  (interpolate 5 (merge_sort Z.le xs) ((length xs - 1) * k)).

Hypothesis edges_unique : NoDup (quantile_edges 5 xs).

Lemma edges_need_two_cells : (2 <= length xs)%nat.
Proof using edges_unique.
  destruct (decide (2 <= length xs)%nat) as [|Hn]; [done | exfalso].
  rewrite quantile_edges_unfold in edges_unique.
  assert (length xs - 1 = 0)%nat as Hz by lia.
  rewrite Hz in edges_unique. simpl in edges_unique.
  apply NoDup_cons in edges_unique as [Hnotin _].
  apply Hnotin, list_elem_of_here.
Qed.

Lemma edges_increasing :
  edge 0 < edge 1 /\ edge 1 < edge 2 /\ edge 2 < edge 3 /\
  edge 3 < edge 4 /\ edge 4 < edge 5.
Proof using edges_unique.
  pose proof edges_need_two_cells as Hn.
  pose proof edges_unique as Hnd.
  rewrite quantile_edges_unfold in Hnd. cbn [fmap list_fmap] in Hnd.
  rewrite !NoDup_cons, !not_elem_of_cons in Hnd.
  assert (Hmono : forall k, (k < 5)%nat -> edge k <= edge (S k)).
  { intros k Hk.
    apply interpolate_mono; [| | lia].
    - apply Nat.mul_le_mono_l. lia.
    - rewrite (Nat.mul_comm 5). apply Nat.mul_le_mono_l. lia. }
  pose proof (Hmono 0%nat ltac:(lia)). pose proof (Hmono 1%nat ltac:(lia)).
  pose proof (Hmono 2%nat ltac:(lia)). pose proof (Hmono 3%nat ltac:(lia)).
  pose proof (Hmono 4%nat ltac:(lia)).
  intuition lia.
Qed.

Lemma edges_bound x : x ∈ xs -> edge 0 <= 5 * x <= edge 5.
Proof using Type.
  intros Hx.
  rewrite quantile_edge_first, quantile_edge_last.
  pose proof (sorted_column_bounds xs x Hx). lia.
Qed.

Lemma bin_id_spec x :
  x ∈ xs ->
  let b := bin_id 5 (quantile_edges 5 xs) x in
  (1 <= b <= 5)%nat /\
  ((b <= 1)%nat <-> 5 * x <= edge 1) /\
  ((b <= 2)%nat <-> 5 * x <= edge 2) /\
  ((b <= 3)%nat <-> 5 * x <= edge 3) /\
  ((b <= 4)%nat <-> 5 * x <= edge 4).
Proof using edges_unique.
  intros Hx. rewrite quantile_edges_unfold. cbn [fmap list_fmap].
  destruct edges_increasing as (H01 & H12 & H23 & H34 & H45).
  apply bin_id_increasing; auto. by apply edges_bound.
Qed.

Lemma bin_id_mono x y :
  x ∈ xs -> y ∈ xs -> x <= y ->
  (bin_id 5 (quantile_edges 5 xs) x <= bin_id 5 (quantile_edges 5 xs) y)%nat.
Proof using edges_unique.
  intros Hx Hy Hxy.
  destruct (bin_id_spec x Hx) as (Hbx & Hx1 & Hx2 & Hx3 & Hx4).
  destruct (bin_id_spec y Hy) as (Hby & Hy1 & Hy2 & Hy3 & Hy4).
  lia.
Qed.

Lemma bin_id_lowest x :
  x ∈ xs -> (forall y, y ∈ xs -> x <= y) ->
  bin_id 5 (quantile_edges 5 xs) x = 1%nat.
Proof using edges_unique.
  intros Hx Hmin.
  destruct (bin_id_spec x Hx) as (Hbx & Hx1 & _).
  destruct edges_increasing as (H01 & _).
  pose proof edges_need_two_cells as Hn.
  assert (H0 : 5 * x <= edge 0); [| lia].
  rewrite quantile_edge_first.
  specialize (Hmin _ (sorted_column_elem xs 0 ltac:(lia))). lia.
Qed.

Lemma bin_id_highest x :
  x ∈ xs -> (forall y, y ∈ xs -> y <= x) ->
  bin_id 5 (quantile_edges 5 xs) x = 5%nat.
Proof using edges_unique.
  intros Hx Hmax.
  destruct (bin_id_spec x Hx) as (Hbx & _ & _ & _ & Hx4).
  destruct edges_increasing as (_ & _ & _ & _ & H45).
  pose proof edges_need_two_cells as Hn.
  assert (H5 : edge 5 <= 5 * x); [| lia].
  rewrite quantile_edge_last.
  specialize (Hmax _ (sorted_column_elem xs (length xs - 1) ltac:(lia))).
  lia.
Qed.

End bins.

(** ** Ranks *)

Lemma count_below_le (xs : list Z) a b :
  a < b ->
  (length (filter (fun y : Z => (y < a)%Z) xs) + length (filter (fun y : Z => y = a) xs)
   <= length (filter (fun y : Z => (y < b)%Z) xs))%nat.
Proof.
  intros Hab. induction xs as [|y xs IH]; [done |].
  rewrite !filter_cons. repeat case_decide; simpl; lia.
Qed.

Lemma count_equal_take (xs : list Z) i a :
  xs !! i = Some a ->
  (length (filter (fun y : Z => y = a) (take i xs))
   < length (filter (fun y : Z => y = a) xs))%nat.
Proof.
  intros Hi. rewrite <- (take_drop_middle xs i a Hi) at 2.
  rewrite filter_app, filter_cons_True by done.
  rewrite length_app. simpl. lia.
Qed.

Lemma count_equal_take_lt (xs : list Z) i j a :
  (i < j)%nat -> xs !! i = Some a ->
  (length (filter (fun y : Z => y = a) (take i xs))
   < length (filter (fun y : Z => y = a) (take j xs)))%nat.
Proof.
  intros Hij Hi.
  replace (take i xs) with (take i (take j xs))
    by (rewrite take_take; f_equal; lia).
  apply count_equal_take. by rewrite lookup_take_lt.
Qed.

(** Ranks follow the order "smaller, or equal and earlier". *)
Lemma rank_at_lt (xs : list Z) i j a b :
  xs !! i = Some a -> xs !! j = Some b ->
  a < b \/ (a = b /\ (i < j)%nat) ->
  rank_at xs i a < rank_at xs j b.
Proof.
  intros Hi Hj [Hab | [<- Hij]]; unfold rank_at.
  - pose proof (count_below_le xs a b Hab).
    pose proof (count_equal_take xs i a Hi). lia.
  - pose proof (count_equal_take_lt xs i j a Hij Hi). lia.
Qed.

Lemma rank_at_le (xs : list Z) i j a b :
  xs !! i = Some a -> xs !! j = Some b ->
  a < b \/ (a = b /\ (i <= j)%nat) ->
  rank_at xs i a <= rank_at xs j b.
Proof.
  intros Hi Hj [Hab | [<- Hij]].
  - apply Z.lt_le_incl. eapply rank_at_lt; eauto.
  - destruct (decide (i = j)) as [-> | Hne]; [lia |].
    apply Z.lt_le_incl. eapply rank_at_lt; eauto with lia.
Qed.

Lemma rank_first_lookup (xs : list Z) i a :
  xs !! i = Some a -> rank_first xs !! i = Some (rank_at xs i a).
Proof. intros Hi. unfold rank_first. by rewrite list_lookup_imap, Hi. Qed.

Lemma rank_first_lookup_inv (xs : list Z) i r :
  rank_first xs !! i = Some r ->
  exists a, xs !! i = Some a /\ r = rank_at xs i a.
Proof.
  unfold rank_first. rewrite list_lookup_imap.
  destruct (xs !! i) as [a|]; simpl; [| discriminate].
  intros H. inversion H. eauto.
Qed.

Lemma NoDup_rank_first (xs : list Z) : NoDup (rank_first xs).
Proof.
  apply NoDup_alt. intros i j r Hi Hj.
  apply rank_first_lookup_inv in Hi as (a & Hi & ->).
  apply rank_first_lookup_inv in Hj as (b & Hj & Heq).
  destruct (decide (i = j)) as [|Hne]; [done | exfalso].
  destruct (Z.lt_trichotomy a b) as [Hab | [Hab | Hab]].
  - pose proof (rank_at_lt xs i j a b Hi Hj ltac:(auto)). lia.
  - destruct (decide (i < j)%nat).
    + pose proof (rank_at_lt xs i j a b Hi Hj ltac:(auto)). lia.
    + pose proof (rank_at_lt xs j i b a Hj Hi ltac:(right; split; [done | lia])).
      lia.
  - pose proof (rank_at_lt xs j i b a Hj Hi ltac:(auto)). lia.
Qed.

(** ** Labels of a scored column *)

Lemma length_quantile_edges xs : length (quantile_edges 5 xs) = 6%nat.
Proof. unfold quantile_edges. by rewrite length_fmap, length_seq. Qed.

Lemma cut_label_direct xs x :
  NoDup (quantile_edges 5 xs) -> x ∈ xs ->
  cut_label 5 (quantile_edges 5 xs) [1; 2; 3; 4; 5] x
  = Some (Z.of_nat (bin_id 5 (quantile_edges 5 xs) x)).
Proof.
  intros Hnd Hx. unfold cut_label. rewrite length_quantile_edges.
  destruct (bin_id_spec xs Hnd x Hx) as (Hb & _).
  set (b := bin_id 5 (quantile_edges 5 xs) x) in *.
  case_decide; [lia |].
  destruct b as [|[|[|[|[|[|b]]]]]]; try lia; reflexivity.
Qed.

Lemma cut_label_inverted xs x :
  NoDup (quantile_edges 5 xs) -> x ∈ xs ->
  cut_label 5 (quantile_edges 5 xs) [5; 4; 3; 2; 1] x
  = Some (6 - Z.of_nat (bin_id 5 (quantile_edges 5 xs) x)).
Proof.
  intros Hnd Hx. unfold cut_label. rewrite length_quantile_edges.
  destruct (bin_id_spec xs Hnd x Hx) as (Hb & _).
  set (b := bin_id 5 (quantile_edges 5 xs) x) in *.
  case_decide; [lia |].
  destruct b as [|[|[|[|[|[|b]]]]]]; try lia; reflexivity.
Qed.

Lemma score_column_lookup xs labels l i x :
  score_column xs labels = Ok l -> xs !! i = Some x ->
  exists s, l !! i = Some s /\
    cut_label 5 (quantile_edges 5 xs) labels x = Some s.
Proof.
  intros [_ H]%score_column_Ok Hx.
  apply (f_equal (fun c => c !! i)) in H.
  rewrite !list_lookup_fmap, Hx in H. simpl in H.
  destruct (l !! i) as [s|]; simpl in H; [| discriminate].
  exists s. split; [done | congruence].
Qed.

Lemma direct_score_lookup xs l i x s :
  score_column xs [1; 2; 3; 4; 5] = Ok l ->
  xs !! i = Some x -> l !! i = Some s ->
  s = Z.of_nat (bin_id 5 (quantile_edges 5 xs) x).
Proof.
  intros Hl Hx Hs.
  destruct (score_column_lookup _ _ _ _ _ Hl Hx) as (s' & Hs' & Hcut).
  apply score_column_Ok in Hl as [Hnd _].
  rewrite cut_label_direct in Hcut
    by (done || by eapply list_elem_of_lookup_2).
  congruence.
Qed.


(** ** Order of the scores *)


Lemma direct_scores ks l i a s :
  score_column (rank_first ks) [1; 2; 3; 4; 5] = Ok l ->
  ks !! i = Some a -> l !! i = Some s ->
  (forall j b t, ks !! j = Some b -> l !! j = Some t ->
     a < b \/ (a = b /\ (i <= j)%nat) -> s <= t) /\
  ((forall j b, ks !! j = Some b -> a < b \/ (a = b /\ (i <= j)%nat)) ->
     s = 1) /\
  ((forall j b, ks !! j = Some b -> b < a \/ (b = a /\ (j <= i)%nat)) ->
     s = 5).
Proof.
  intros Hl Ha Hs.
  pose proof (rank_first_lookup ks i a Ha) as Hr.
  pose proof (direct_score_lookup _ _ _ _ _ Hl Hr Hs) as ->.
  pose proof (proj1 (score_column_Ok _ _ _ Hl)) as Hnd.
  assert (Hin : rank_at ks i a ∈ rank_first ks)
    by (by eapply list_elem_of_lookup_2).
  repeat split.
  - intros j b t Hb Ht Hord.
    pose proof (rank_first_lookup ks j b Hb) as Hrb.
    pose proof (direct_score_lookup _ _ _ _ _ Hl Hrb Ht) as ->.
    apply inj_le, (bin_id_mono _ Hnd); [done | | ].
    + by eapply list_elem_of_lookup_2.
    + by apply rank_at_le.
  - intros Hmin. rewrite (bin_id_lowest _ Hnd _ Hin); [done |].
    intros r [j Hj]%list_elem_of_lookup.
    apply rank_first_lookup_inv in Hj as (b & Hb & ->).
    apply rank_at_le; auto.
  - intros Hmax. rewrite (bin_id_highest _ Hnd _ Hin); [done |].
    intros r [j Hj]%list_elem_of_lookup.
    apply rank_first_lookup_inv in Hj as (b & Hb & ->).
    apply rank_at_le; auto.
Qed.

Lemma row_lookup (key : CustomerMetrics -> Z) (score : ScoredRow -> Z)
    (rows : list ScoredRow) i a :
  rows !! i = Some a ->
  (key <$> (metrics <$> rows)) !! i = Some (key (metrics a)) /\
  (score <$> rows) !! i = Some (score a).
Proof. intros H. by rewrite !list_lookup_fmap, H. Qed.

Lemma direct_mapping_of_ranks key score rows :
  score_column (rank_first (key <$> (metrics <$> rows))) [1; 2; 3; 4; 5]
  = Ok (score <$> rows) ->
  direct_mapping key score rows.
Proof.
  intros Hl. repeat split.
  - intros i j a b Ha Hb Hord.
    destruct (row_lookup key score rows i a Ha) as [Hka Hsa].
    destruct (row_lookup key score rows j b Hb) as [Hkb Hsb].
    destruct (direct_scores _ _ _ _ _ Hl Hka Hsa) as (Hmono & _).
    eapply Hmono; eauto.
  - intros i a Ha Hfirst.
    destruct (row_lookup key score rows i a Ha) as [Hka Hsa].
    destruct (direct_scores _ _ _ _ _ Hl Hka Hsa) as (_ & Hlow & _).
    apply Hlow. intros j kb Hj.
    rewrite !list_lookup_fmap in Hj.
    destruct (rows !! j) as [b|] eqn:Hb; simpl in Hj; [| discriminate].
    inversion Hj; subst kb. by apply (Hfirst j b).
  - intros i a Ha Hlast.
    destruct (row_lookup key score rows i a Ha) as [Hka Hsa].
    destruct (direct_scores _ _ _ _ _ Hl Hka Hsa) as (_ & _ & Hhigh).
    apply Hhigh. intros j kb Hj.
    rewrite !list_lookup_fmap in Hj.
    destruct (rows !! j) as [b|] eqn:Hb; simpl in Hj; [| discriminate].
    inversion Hj; subst kb. by apply (Hlast j b).
Qed.


(** ** Counting cells *)


Lemma length_filter_ext {A} (P Q : A -> Prop)
    `{!forall x, Decision (P x)} `{!forall x, Decision (Q x)} (l : list A) :
  (forall x, x ∈ l -> P x <-> Q x) ->
  length (filter P l) = length (filter Q l).
Proof.
  induction l as [|x l IH]; intros Hext; [done |].
  rewrite !filter_cons.
  pose proof (Hext x (list_elem_of_here _ _)) as Hx.
  assert (IH' : length (filter P l) = length (filter Q l)).
  { apply IH. intros y Hy. apply Hext. by apply list_elem_of_further. }
  repeat case_decide; simpl; try tauto; lia.
Qed.

Lemma length_filter_fmap {A B} (g : A -> B) (P : B -> Prop)
    `{!forall y, Decision (P y)} (l : list A) :
  length (filter P (g <$> l)) = length (filter (fun x => P (g x)) l).
Proof.
  induction l as [|x l IH]; [done |].
  rewrite fmap_cons, !filter_cons. repeat case_decide; simpl; congruence.
Qed.

(** A predicate that holds exactly on the first [m] cells holds [m]
    times. *)
Lemma length_filter_prefix {A} (P : A -> Prop)
    `{!forall x, Decision (P x)} (l : list A) (m : nat) :
  (m <= length l)%nat ->
  (forall j x, l !! j = Some x -> P x <-> (j < m)%nat) ->
  length (filter P l) = m.
Proof.
  revert m. induction l as [|x l IH]; intros m Hm Hpre.
  - simpl in Hm. by replace m with 0%nat by lia.
  - rewrite filter_cons. pose proof (Hpre 0%nat x eq_refl) as H0.
    destruct m as [|m].
    + case_decide as Hd; [apply H0 in Hd; lia |].
      apply (IH 0%nat); [lia |].
      intros j y Hy. rewrite (Hpre (S j) y Hy). lia.
    + case_decide as Hd; [| exfalso; apply Hd, H0; lia].
      simpl. f_equal. apply IH; [simpl in Hm; lia |].
      intros j y Hy. rewrite (Hpre (S j) y Hy). lia.
Qed.

Lemma length_filter_step {A} (f : A -> nat) (b : nat) (l : list A) :
  (length (filter (fun x => f x = S b) l)
   + length (filter (fun x => (f x <= b)%nat) l)
   = length (filter (fun x => (f x <= S b)%nat) l))%nat.
Proof.
  induction l as [|x l IH]; [done |].
  rewrite !filter_cons. repeat case_decide; simpl; lia.
Qed.

Lemma astype_int_Some (l : list Z) : astype_int (Some <$> l) = Ok l.
Proof.
  induction l as [|x l IH]; [done |].
  rewrite fmap_cons. cbn [astype_int]. by rewrite IH.
Qed.

(** ** Columns without ties *)

Section distinct_cells.
Variable xs : list Z.
Hypothesis cells_distinct : NoDup xs.
Hypothesis two_cells : (2 <= length xs)%nat.

Local Abbreviation edge k :=
  (interpolate 5 (merge_sort Z.le xs) ((length xs - 1) * k)).

Local Abbreviation bin := (bin_id 5 (quantile_edges 5 xs)).

Lemma distinct_edges_increasing k :
  (k < 5)%nat -> edge k < edge (S k).
Proof using cells_distinct two_cells.
  intros Hk. apply interpolate_strict; [done | |].
  - apply Nat.mul_lt_mono_pos_l; lia.
  - rewrite (Nat.mul_comm 5). apply Nat.mul_le_mono_l. lia.
Qed.

Lemma distinct_edges_unique : NoDup (quantile_edges 5 xs).
Proof using cells_distinct two_cells.
  rewrite quantile_edges_unfold. cbn [fmap list_fmap].
  pose proof (distinct_edges_increasing 0 ltac:(lia)).
  pose proof (distinct_edges_increasing 1 ltac:(lia)).
  pose proof (distinct_edges_increasing 2 ltac:(lia)).
  pose proof (distinct_edges_increasing 3 ltac:(lia)).
  pose proof (distinct_edges_increasing 4 ltac:(lia)).
  rewrite !NoDup_cons, !not_elem_of_cons, !elem_of_nil, NoDup_nil.
  intuition lia.
Qed.

Lemma count_below_edge k :
  (k <= 5)%nat ->
  length (filter (fun x => 5 * x <= edge k) xs)
  = ((length xs - 1) * k / 5 + 1)%nat.
Proof using cells_distinct two_cells.
  intros Hk.
  assert (Hpos : ((length xs - 1) * k <= 5 * (length xs - 1))%nat).
  { rewrite (Nat.mul_comm 5). apply Nat.mul_le_mono_l. lia. }
  assert (Hlo : ((length xs - 1) * k / 5 + 1 <= length xs)%nat).
  { pose proof (Nat.div_mod_eq ((length xs - 1) * k) 5). lia. }
  rewrite <- (sorted_column_perm xs) at 1.
  apply length_filter_prefix.
  - by rewrite sorted_column_length.
  - intros j x Hj.
    pose proof (lookup_lt_Some _ _ _ Hj) as Hlt.
    rewrite sorted_column_length in Hlt.
    rewrite <- (list_lookup_total_correct _ _ _ Hj).
    rewrite interpolate_above by done. lia.
Qed.

Lemma count_bin_le k :
  (1 <= k <= 4)%nat ->
  length (filter (fun x => (bin x <= k)%nat) xs)
  = ((length xs - 1) * k / 5 + 1)%nat.
Proof using cells_distinct two_cells.
  intros Hk. rewrite <- count_below_edge by lia.
  apply length_filter_ext. intros x Hx.
  destruct (bin_id_spec xs distinct_edges_unique x Hx)
    as (Hb & H1 & H2 & H3 & H4).
  destruct k as [|[|[|[|[|k]]]]]; try lia; tauto.
Qed.

Lemma count_bin_all :
  length (filter (fun x => (bin x <= 5)%nat) xs) = length xs.
Proof using cells_distinct two_cells.
  transitivity (length (filter (fun _ : Z => True) xs)).
  - apply length_filter_ext. intros x Hx.
    destruct (bin_id_spec xs distinct_edges_unique x Hx) as (Hb & _).
    intuition lia.
  - clear. induction xs as [|y l IH]; [done |].
    rewrite filter_cons_True by done. simpl. by rewrite IH.
Qed.

Lemma count_bin_none :
  length (filter (fun x => (bin x <= 0)%nat) xs) = 0%nat.
Proof using cells_distinct two_cells.
  transitivity (length (filter (fun _ : Z => False) xs)).
  - apply length_filter_ext. intros x Hx.
    destruct (bin_id_spec xs distinct_edges_unique x Hx) as (Hb & _).
    intuition lia.
  - clear. induction xs as [|y l IH]; [done |].
    by rewrite filter_cons_False by tauto.
Qed.

(** The number of cells in each of the five bins. *)
Lemma bin_sizes :
  let c k := ((length xs - 1) * k / 5)%nat in
  let size b := length (filter (fun x => bin x = b) xs) in
  size 1%nat = (c 1 + 1)%nat /\
  (size 2 + c 1 = c 2)%nat /\
  (size 3 + c 2 = c 3)%nat /\
  (size 4 + c 3 = c 4)%nat /\
  (size 5 + c 4 + 1 = length xs)%nat.
Proof using cells_distinct two_cells.
  intros c size. subst c size. cbv beta.
  pose proof (length_filter_step bin 0 xs) as S1.
  pose proof (length_filter_step bin 1 xs) as S2.
  pose proof (length_filter_step bin 2 xs) as S3.
  pose proof (length_filter_step bin 3 xs) as S4.
  pose proof (length_filter_step bin 4 xs) as S5.
  rewrite count_bin_none in S1. rewrite count_bin_all in S5.
  rewrite !count_bin_le in * by lia. lia.
Qed.

(** From five cells on, no bin is empty and sizes differ by at most
    one. *)
Lemma bins_balanced b b' :
  (5 <= length xs)%nat -> (1 <= b <= 5)%nat -> (1 <= b' <= 5)%nat ->
  (1 <= length (filter (fun x => bin x = b) xs)
   <= length (filter (fun x => bin x = b') xs) + 1)%nat.
Proof using cells_distinct two_cells.
  intros Hn Hb Hb'.
  destruct bin_sizes as (S1 & S2 & S3 & S4 & S5).
  pose proof (Nat.div_mod_eq ((length xs - 1) * 1) 5).
  pose proof (Nat.mod_upper_bound ((length xs - 1) * 1) 5 ltac:(lia)).
  pose proof (Nat.div_mod_eq ((length xs - 1) * 2) 5).
  pose proof (Nat.mod_upper_bound ((length xs - 1) * 2) 5 ltac:(lia)).
  pose proof (Nat.div_mod_eq ((length xs - 1) * 3) 5).
  pose proof (Nat.mod_upper_bound ((length xs - 1) * 3) 5 ltac:(lia)).
  pose proof (Nat.div_mod_eq ((length xs - 1) * 4) 5).
  pose proof (Nat.mod_upper_bound ((length xs - 1) * 4) 5 ltac:(lia)).
  destruct b as [|[|[|[|[|[|b]]]]]]; try lia;
    destruct b' as [|[|[|[|[|[|b']]]]]]; try lia.
Qed.

End distinct_cells.

(** ** Scored columns as maps of the cells *)

Lemma direct_column xs l :
  score_column xs [1; 2; 3; 4; 5] = Ok l ->
  l = (fun x => Z.of_nat (bin_id 5 (quantile_edges 5 xs) x)) <$> xs.
Proof.
  intros [Hnd Hl]%score_column_Ok.
  apply (inj (fmap Some)). rewrite Hl, <- list_fmap_compose.
  apply list_fmap_ext. intros i x Hx. simpl.
  apply cut_label_direct; [done | by eapply list_elem_of_lookup_2].
Qed.

Lemma inverted_column xs l :
  score_column xs [5; 4; 3; 2; 1] = Ok l ->
  l = (fun x => 6 - Z.of_nat (bin_id 5 (quantile_edges 5 xs) x)) <$> xs.
Proof.
  intros [Hnd Hl]%score_column_Ok.
  apply (inj (fmap Some)). rewrite Hl, <- list_fmap_compose.
  apply list_fmap_ext. intros i x Hx. simpl.
  apply cut_label_inverted; [done | by eapply list_elem_of_lookup_2].
Qed.

Lemma direct_column_range xs l s :
  score_column xs [1; 2; 3; 4; 5] = Ok l -> s ∈ l -> 1 <= s <= 5.
Proof.
  intros Hl Hs. pose proof (proj1 (score_column_Ok _ _ _ Hl)) as Hnd.
  rewrite (direct_column _ _ Hl) in Hs.
  apply list_elem_of_fmap in Hs as (x & -> & Hx).
  destruct (bin_id_spec xs Hnd x Hx) as (Hb & _). lia.
Qed.

Lemma inverted_column_range xs l s :
  score_column xs [5; 4; 3; 2; 1] = Ok l -> s ∈ l -> 1 <= s <= 5.
Proof.
  intros Hl Hs. pose proof (proj1 (score_column_Ok _ _ _ Hl)) as Hnd.
  rewrite (inverted_column _ _ Hl) in Hs.
  apply list_elem_of_fmap in Hs as (x & -> & Hx).
  destruct (bin_id_spec xs Hnd x Hx) as (Hb & _). lia.
Qed.

Lemma direct_column_scored xs :
  NoDup (quantile_edges 5 xs) ->
  score_column xs [1; 2; 3; 4; 5]
  = Ok ((fun x => Z.of_nat (bin_id 5 (quantile_edges 5 xs) x)) <$> xs).
Proof.
  intros He. unfold score_column, qcut. rewrite decide_True by done. simpl.
  rewrite <- astype_int_Some. f_equal.
  rewrite <- list_fmap_compose. apply list_fmap_ext. intros i x Hx. simpl.
  apply cut_label_direct; [done | by eapply list_elem_of_lookup_2].
Qed.

Lemma inverted_column_scored xs :
  NoDup (quantile_edges 5 xs) ->
  score_column xs [5; 4; 3; 2; 1]
  = Ok ((fun x => 6 - Z.of_nat (bin_id 5 (quantile_edges 5 xs) x)) <$> xs).
Proof.
  intros He. unfold score_column, qcut. rewrite decide_True by done. simpl.
  rewrite <- astype_int_Some. f_equal.
  rewrite <- list_fmap_compose. apply list_fmap_ext. intros i x Hx. simpl.
  apply cut_label_inverted; [done | by eapply list_elem_of_lookup_2].
Qed.

Lemma direct_column_succeeds xs :
  NoDup xs -> (2 <= length xs)%nat ->
  exists l, score_column xs [1; 2; 3; 4; 5] = Ok l.
Proof.
  intros Hnd Hn. eexists. apply direct_column_scored.
  by apply distinct_edges_unique.
Qed.

Lemma inverted_column_succeeds xs :
  NoDup xs -> (2 <= length xs)%nat ->
  exists l, score_column xs [5; 4; 3; 2; 1] = Ok l.
Proof.
  intros Hnd Hn. eexists. apply inverted_column_scored.
  by apply distinct_edges_unique.
Qed.

(** Buckets of a column without ties: none is empty and their sizes
    differ by at most one, whichever way the labels run. *)
Lemma direct_column_balanced xs l s t :
  NoDup xs -> (5 <= length xs)%nat ->
  score_column xs [1; 2; 3; 4; 5] = Ok l ->
  1 <= s <= 5 -> 1 <= t <= 5 ->
  (1 <= bucket_size s l <= bucket_size t l + 1)%nat.
Proof.
  intros Hnd Hn Hl Hs Ht. rewrite (direct_column _ _ Hl).
  unfold bucket_size. rewrite !length_filter_fmap.
  pose proof (bins_balanced xs Hnd ltac:(lia) (Z.to_nat s) (Z.to_nat t)
                Hn ltac:(lia) ltac:(lia)) as Hbal.
  rewrite (length_filter_ext _ (fun x =>
             bin_id 5 (quantile_edges 5 xs) x = Z.to_nat s))
    by (intros; lia).
  rewrite (length_filter_ext (fun x => Z.of_nat _ = t) (fun x =>
             bin_id 5 (quantile_edges 5 xs) x = Z.to_nat t))
    by (intros; lia).
  exact Hbal.
Qed.

Lemma inverted_column_balanced xs l s t :
  NoDup xs -> (5 <= length xs)%nat ->
  score_column xs [5; 4; 3; 2; 1] = Ok l ->
  1 <= s <= 5 -> 1 <= t <= 5 ->
  (1 <= bucket_size s l <= bucket_size t l + 1)%nat.
Proof.
  intros Hnd Hn Hl Hs Ht. rewrite (inverted_column _ _ Hl).
  unfold bucket_size. rewrite !length_filter_fmap.
  pose proof (bins_balanced xs Hnd ltac:(lia) (Z.to_nat (6 - s))
                (Z.to_nat (6 - t)) Hn ltac:(lia) ltac:(lia)) as Hbal.
  rewrite (length_filter_ext _ (fun x =>
             bin_id 5 (quantile_edges 5 xs) x = Z.to_nat (6 - s)))
    by (intros; lia).
  rewrite (length_filter_ext (fun x => 6 - Z.of_nat _ = t) (fun x =>
             bin_id 5 (quantile_edges 5 xs) x = Z.to_nat (6 - t)))
    by (intros; lia).
  exact Hbal.
Qed.

Lemma ranked_column_succeeds ks :
  (2 <= length ks)%nat ->
  exists l, score_column (rank_first ks) [1; 2; 3; 4; 5] = Ok l.
Proof.
  intros Hn. apply direct_column_succeeds.
  - apply NoDup_rank_first.
  - by rewrite length_rank_first.
Qed.

Lemma ranked_column_balanced ks l s t :
  (5 <= length ks)%nat ->
  score_column (rank_first ks) [1; 2; 3; 4; 5] = Ok l ->
  1 <= s <= 5 -> 1 <= t <= 5 ->
  (1 <= bucket_size s l <= bucket_size t l + 1)%nat.
Proof.
  intros Hn. apply direct_column_balanced.
  - apply NoDup_rank_first.
  - by rewrite length_rank_first.
Qed.


(** ** Buckets of a classified population *)

Lemma classify_distinct_recency cms :
  NoDup (Recency <$> cms) -> (2 <= length cms)%nat ->
  exists rows, classify cms = Ok rows.
Proof.
  intros Hnd Hn. unfold classify, R_Score_column, F_Score_column,
    M_Score_column.
  destruct (inverted_column_succeeds (Recency <$> cms)) as [rs ->];
    [done | by rewrite length_fmap |].
  destruct (ranked_column_succeeds (Frequency <$> cms)) as [fs ->];
    [by rewrite length_fmap |].
  destruct (ranked_column_succeeds (Monetary <$> cms)) as [ms ->];
    [by rewrite length_fmap |].
  simpl. eauto.
Qed.

(** C4, as the code has it: on at least five customers, whenever the
    population is scored every customer has its three scores in 1..5;
    Frequency and Monetary, binned on their first-occurrence ranks, fill
    all five buckets with sizes at most one apart; Recency, binned on its
    raw value, does so when the Recency values are pairwise distinct, in
    which case the population is always scored. *)
Theorem quintile_buckets (cms : list CustomerMetrics) :
  (5 <= length cms)%nat ->
  (forall rows, classify cms = Ok rows ->
     metrics <$> rows = cms /\
     (forall row, row ∈ rows ->
        1 <= R_Score row <= 5 /\ 1 <= F_Score row <= 5 /\
        1 <= M_Score row <= 5) /\
     (forall s t, 1 <= s <= 5 -> 1 <= t <= 5 ->
        (1 <= bucket_size s (F_Score <$> rows)
         <= bucket_size t (F_Score <$> rows) + 1)%nat) /\
     (forall s t, 1 <= s <= 5 -> 1 <= t <= 5 ->
        (1 <= bucket_size s (M_Score <$> rows)
         <= bucket_size t (M_Score <$> rows) + 1)%nat) /\
     (NoDup (Recency <$> cms) ->
      forall s t, 1 <= s <= 5 -> 1 <= t <= 5 ->
        (1 <= bucket_size s (R_Score <$> rows)
         <= bucket_size t (R_Score <$> rows) + 1)%nat)) /\
  (NoDup (Recency <$> cms) -> exists rows, classify cms = Ok rows).
Proof.
  intros Hn. split; [| intros Hnd; apply classify_distinct_recency; [done | lia]].
  intros rows
    (rs & fs & ms & Hrs & Hfs & Hms & _ & Hm & HR & HF & HM)%classify_Ok.
  unfold R_Score_column, F_Score_column, M_Score_column in *.
  rewrite HR, HF, HM. split; [done |].
  split; [| split; [| split]].
  - intros row Hrow. repeat split.
    + eapply (inverted_column_range _ rs); [done |].
      rewrite <- HR. by apply list_elem_of_fmap_2.
    + eapply (inverted_column_range _ rs); [done |].
      rewrite <- HR. by apply list_elem_of_fmap_2.
    + eapply (direct_column_range _ fs); [done |].
      rewrite <- HF. by apply list_elem_of_fmap_2.
    + eapply (direct_column_range _ fs); [done |].
      rewrite <- HF. by apply list_elem_of_fmap_2.
    + eapply (direct_column_range _ ms); [done |].
      rewrite <- HM. by apply list_elem_of_fmap_2.
    + eapply (direct_column_range _ ms); [done |].
      rewrite <- HM. by apply list_elem_of_fmap_2.
  - intros s t Hs Ht.
    eapply ranked_column_balanced; eauto. by rewrite length_fmap.
  - intros s t Hs Ht.
    eapply ranked_column_balanced; eauto. by rewrite length_fmap.
  - intros Hnd s t Hs Ht.
    eapply inverted_column_balanced; eauto. by rewrite length_fmap.
Qed.

Lemma quintile_buckets_witness :
  exists rows, classify (rfm (20 * ns_per_day) orders_zero_value) = Ok rows.
Proof.
  apply (quintile_buckets (rfm (20 * ns_per_day) orders_zero_value)).
  - vm_compute. lia.
  - apply (bool_decide_unpack _). vm_compute. exact I.
Defined.

(** C4, as the claim states it, fails: five customers, two of them with
    the same Recency, are scored and no customer receives R_Score 3. *)
Lemma tied_recency_leaves_bucket_empty :
  exists rows k,
    run (20 * ns_per_day) orders_tied_recency = Ok (rows, k) /\
    length rows = 5%nat /\
    bucket_size 3 (R_Score <$> rows) = 0%nat.
Proof.
  destruct (run (20 * ns_per_day) orders_tied_recency) as [[rows k]|e] eqn:E;
    vm_compute in E; [| discriminate].
  exists rows, k. inversion E. by vm_compute.
Qed.

(** ** Rejected populations *)

Lemma same_cells_edges_repeat (xs : list Z) :
  (forall x y, x ∈ xs -> y ∈ xs -> x = y) ->
  ~ NoDup (quantile_edges 5 xs).
Proof.
  intros Hsame Hnd.
  pose proof (edges_need_two_cells xs Hnd) as Hn.
  destruct (edges_increasing xs Hnd) as (H01 & H12 & H23 & H34 & H45).
  rewrite quantile_edge_first in H01. rewrite quantile_edge_last in H45.
  pose proof (Hsame _ _ (sorted_column_elem xs 0 ltac:(lia))
                (sorted_column_elem xs (length xs - 1) ltac:(lia))) as Heq.
  lia.
Qed.

Lemma classify_scored (cms : list CustomerMetrics) :
  NoDup (quantile_edges 5 (Recency <$> cms)) ->
  exists rows, classify cms = Ok rows.
Proof.
  intros He. pose proof (edges_need_two_cells _ He) as Hn.
  rewrite length_fmap in Hn.
  unfold classify, R_Score_column, F_Score_column, M_Score_column.
  rewrite (inverted_column_scored _ He).
  destruct (ranked_column_succeeds (Frequency <$> cms)) as [fs ->];
    [by rewrite length_fmap |].
  destruct (ranked_column_succeeds (Monetary <$> cms)) as [ms ->];
    [by rewrite length_fmap |].
  simpl. eauto.
Qed.

Lemma classify_rejected (cms : list CustomerMetrics) :
  ~ NoDup (quantile_edges 5 (Recency <$> cms)) ->
  classify cms = Raise BinEdgesNotUnique.
Proof.
  intros He. unfold classify, R_Score_column, score_column, qcut.
  by rewrite decide_False.
Qed.

(** C8, as the code has it: the population size is never checked; the
    run fails with pandas' bin-edge error whenever all customers have
    the same Recency (all ordered on the same day, or a single
    customer). *)
Theorem same_recency_rejected (snapshot_date : Z) (df : list OrderRecord) :
  (forall c c', c ∈ rfm snapshot_date df -> c' ∈ rfm snapshot_date df ->
     Recency c = Recency c') ->
  R_Score_column (rfm snapshot_date df) = Raise BinEdgesNotUnique /\
  classify (rfm snapshot_date df) = Raise BinEdgesNotUnique /\
  run snapshot_date df = Raise BinEdgesNotUnique.
Proof.
  intros Hsame.
  assert (Hnd : ~ NoDup (quantile_edges 5 (Recency <$> rfm snapshot_date df))).
  { apply same_cells_edges_repeat.
    intros x y (c & -> & Hc)%list_elem_of_fmap (c' & -> & Hc')%list_elem_of_fmap.
    by apply Hsame. }
  assert (HR : R_Score_column (rfm snapshot_date df) = Raise BinEdgesNotUnique).
  { unfold R_Score_column, score_column, qcut. by rewrite decide_False. }
  split; [done |]. unfold run. by rewrite (classify_rejected _ Hnd).
Qed.

Lemma same_recency_rejected_witness :
  run (20 * ns_per_day) orders_same_day = Raise BinEdgesNotUnique.
Proof.
  apply (same_recency_rejected (20 * ns_per_day) orders_same_day).
  intros c c' Hc Hc'.
  vm_compute in Hc, Hc'.
  repeat (apply elem_of_cons in Hc as [-> | Hc]);
    try (by apply elem_of_nil in Hc);
    repeat (apply elem_of_cons in Hc' as [-> | Hc']);
    try (by apply elem_of_nil in Hc'); reflexivity.
Defined.

(** C8, as the claim states it, fails: four customers with distinct
    Recency are scored without error, and five customers with a tied
    Recency are scored although one R bucket stays empty. *)
Lemma four_customers_are_scored :
  (exists rows k,
     run (3 * ns_per_day) orders_four_customers = Ok (rows, k) /\
     length rows = 4%nat) /\
  (exists rows k,
     run (20 * ns_per_day) orders_tied_recency = Ok (rows, k) /\
     bucket_size 3 (R_Score <$> rows) = 0%nat).
Proof.
  split.
  - destruct (run (3 * ns_per_day) orders_four_customers)
      as [[rows k]|e] eqn:E; vm_compute in E; [| discriminate].
    exists rows, k. inversion E. by vm_compute.
  - destruct (run (20 * ns_per_day) orders_tied_recency)
      as [[rows k]|e] eqn:E; vm_compute in E; [| discriminate].
    exists rows, k. inversion E. by vm_compute.
Qed.

(** ** The ten-customer scenario *)

Example scenario_scores :
  exists rows k,
    run (100 * ns_per_day) orders_scenario = Ok (rows, k) /\
    Recency ∘ metrics <$> rows = [1; 2; 3; 4; 5; 6; 7; 8; 9; 10] /\
    Frequency ∘ metrics <$> rows = [3; 3; 3; 3; 3; 3; 3; 3; 3; 3] /\
    R_Score <$> rows = [5; 5; 4; 4; 3; 3; 2; 2; 1; 1] /\
    F_Score <$> rows = [1; 1; 2; 2; 3; 3; 4; 4; 5; 5] /\
    M_Score <$> rows = [1; 1; 2; 2; 3; 3; 4; 4; 5; 5] /\
    total_revenue k = 3000.
Proof.
  destruct (run (100 * ns_per_day) orders_scenario) as [[rows k]|e] eqn:E;
    vm_compute in E; [| discriminate].
  exists rows, k. inversion E. by vm_compute.
Qed.

(** * Further properties of the engine *)

Lemma StronglySorted_le_lt (l : list Z) :
  StronglySorted Z.le l -> NoDup l -> StronglySorted Z.lt l.
Proof.
  induction 1 as [|x l Hs IH Hall]; intros Hnd; [constructor |].
  apply NoDup_cons in Hnd as [Hx Hnd].
  constructor; [by apply IH |].
  rewrite Forall_forall in *. intros y Hy.
  specialize (Hall y Hy).
  assert (x <> y) by (intros ->; done). lia.
Qed.

(** ** Order of the input rows *)

Lemma exact_sum_perm (l1 l2 : list Z) :
  l1 ≡ₚ l2 -> exact_sum l1 = exact_sum l2.
Proof. unfold exact_sum. induction 1; simpl; lia. Qed.

Lemma series_sum_perm (l1 l2 : list Z) :
  l1 ≡ₚ l2 -> series_sum l1 = series_sum l2.
Proof. intros Hp. by rewrite !series_sum_wrap, (exact_sum_perm _ _ Hp). Qed.

Lemma series_max_perm (l1 l2 : list Z) :
  l1 ≡ₚ l2 -> series_max l1 = series_max l2.
Proof.
  intros Hp. destruct l1 as [|x l1].
  - apply Permutation_nil_l in Hp. by subst.
  - assert (Hne1 : x :: l1 <> []) by done.
    assert (Hne2 : l2 <> []).
    { intros ->. by apply Permutation_nil_r in Hp. }
    pose proof (series_max_elem _ Hne1) as H1.
    pose proof (series_max_elem _ Hne2) as H2.
    apply (elem_of_perm _ _ _ Hp) in H1.
    symmetry in Hp. apply (elem_of_perm _ _ _ Hp) in H2.
    apply series_max_ge in H1, H2. lia.
Qed.

Lemma group_keys_perm (df1 df2 : list OrderRecord) :
  df1 ≡ₚ df2 -> group_keys df1 = group_keys df2.
Proof.
  intros Hp. unfold group_keys.
  apply (Sorted_unique Z.le).
  - apply Sorted_merge_sort; apply _.
  - apply Sorted_merge_sort; apply _.
  - rewrite !merge_sort_Permutation.
    apply NoDup_Permutation; [apply NoDup_remove_dups.. |].
    intros u. rewrite !elem_of_remove_dups. by rewrite Hp.
Qed.

Lemma agg_group_perm snapshot_date (df1 df2 : list OrderRecord) u :
  df1 ≡ₚ df2 ->
  agg_group snapshot_date df1 u = agg_group snapshot_date df2 u.
Proof.
  intros Hp. unfold agg_group, group_of, series_count.
  assert (Hg : filter (fun o => user_id o = u) df1
               ≡ₚ filter (fun o => user_id o = u) df2) by (by rewrite Hp).
  f_equal.
  - f_equal. f_equal. apply series_max_perm. by rewrite Hg.
  - f_equal. by rewrite Hg.
  - apply series_sum_perm. by rewrite Hg.
Qed.

Lemma rfm_perm snapshot_date (df1 df2 : list OrderRecord) :
  df1 ≡ₚ df2 -> rfm snapshot_date df1 = rfm snapshot_date df2.
Proof.
  intros Hp. unfold rfm. rewrite (group_keys_perm _ _ Hp).
  apply list_fmap_ext. intros _ u _. by apply agg_group_perm.
Qed.

(** X2: for an integer order_value column the order of the uploaded
    rows does not matter: two data sets with the same rows in a
    different order give the same customer metrics, scores, segments and
    KPIs. *)
Theorem row_order_does_not_matter (snapshot_date : Z)
    (df1 df2 : list OrderRecord) :
  df1 ≡ₚ df2 ->
  rfm snapshot_date df1 = rfm snapshot_date df2 /\
  run snapshot_date df1 = run snapshot_date df2.
Proof.
  intros Hp. pose proof (rfm_perm snapshot_date _ _ Hp) as Hrfm.
  split; [done |]. unfold run. by rewrite Hrfm.
Qed.

Lemma row_order_does_not_matter_witness :
  run 0 [order_on 1 0 10; order_on 2 1 20; order_on 1 2 30]
  = run 0 [order_on 1 2 30; order_on 1 0 10; order_on 2 1 20].
Proof.
  apply (row_order_does_not_matter 0
           [order_on 1 0 10; order_on 2 1 20; order_on 1 2 30]
           [order_on 1 2 30; order_on 1 0 10; order_on 2 1 20]).
  symmetry.
  apply (Permutation_cons_append [order_on 1 0 10; order_on 2 1 20]
           (order_on 1 2 30)).
Defined.

(** ** Sums over groups *)

Lemma exact_sum_cons (x : Z) (xs : list Z) :
  exact_sum (x :: xs) = x + exact_sum xs.
Proof. done. Qed.

Lemma exact_sum_zero {K} (keys : list K) :
  exact_sum ((fun _ => 0) <$> keys) = 0.
Proof.
  induction keys as [|u keys IH]; [done |].
  by rewrite fmap_cons, exact_sum_cons, IH.
Qed.

Lemma exact_sum_add {K} (g h : K -> Z) (keys : list K) :
  exact_sum ((fun u => g u + h u) <$> keys)
  = exact_sum (g <$> keys) + exact_sum (h <$> keys).
Proof.
  induction keys as [|u keys IH]; [done |].
  rewrite !fmap_cons, !exact_sum_cons, IH. lia.
Qed.

Lemma exact_sum_indicator `{EqDecision K} (x : K) (v : Z) (keys : list K) :
  NoDup keys -> x ∈ keys ->
  exact_sum ((fun u => if decide (x = u) then v else 0) <$> keys) = v.
Proof.
  induction 1 as [|u keys Hu Hnd IH]; intros Hx.
  - by apply elem_of_nil in Hx.
  - rewrite fmap_cons, exact_sum_cons.
    apply elem_of_cons in Hx as [-> | Hx].
    + rewrite decide_True by done.
      assert (Hrest : exact_sum
                ((fun u0 => if decide (u = u0) then v else 0) <$> keys) = 0).
      { clear IH Hnd. induction keys as [|w keys IH]; [done |].
        apply not_elem_of_cons in Hu as [Hne Hu].
        rewrite fmap_cons, exact_sum_cons.
        rewrite decide_False by done. by rewrite IH. }
      lia.
    + rewrite decide_False by (intros ->; done). by rewrite IH.
Qed.

(** Summing the groups of a partition by key gives the sum of the whole
    column. *)
Lemma exact_sum_by_key `{EqDecision K} {A} (key : A -> K) (val : A -> Z)
    (keys : list K) (l : list A) :
  NoDup keys -> (forall a, a ∈ l -> key a ∈ keys) ->
  exact_sum ((fun u => exact_sum (val <$> filter (fun a => key a = u) l))
               <$> keys)
  = exact_sum (val <$> l).
Proof.
  intros Hnd. induction l as [|a l IH]; intros Hcov.
  - apply exact_sum_zero.
  - rewrite fmap_cons, exact_sum_cons.
    transitivity (exact_sum
      ((fun u => (if decide (key a = u) then val a else 0)
                 + exact_sum (val <$> filter (fun a0 => key a0 = u) l))
         <$> keys)).
    + f_equal. apply list_fmap_ext. intros _ u _.
      rewrite filter_cons. case_decide; [| lia].
      by rewrite fmap_cons, exact_sum_cons.
    + rewrite exact_sum_add, exact_sum_indicator, IH; [done | | done |].
      * intros b Hb. apply Hcov. by apply list_elem_of_further.
      * apply Hcov, list_elem_of_here.
Qed.

Lemma wrap64_exact_sum_fmap {K} (g : K -> Z) (keys : list K) :
  wrap64 (exact_sum ((fun u => wrap64 (g u)) <$> keys))
  = wrap64 (exact_sum (g <$> keys)).
Proof.
  induction keys as [|u keys IH]; [done |].
  rewrite !fmap_cons, !exact_sum_cons.
  rewrite wrap64_add_l, <- wrap64_add_r, IH. apply wrap64_add_r.
Qed.

(** The same for int64 sums: the sum of the group sums is the sum of
    the column. *)
Lemma series_sum_by_key `{EqDecision K} {A} (key : A -> K) (val : A -> Z)
    (keys : list K) (l : list A) :
  NoDup keys -> (forall a, a ∈ l -> key a ∈ keys) ->
  series_sum ((fun u => series_sum (val <$> filter (fun a => key a = u) l))
                <$> keys)
  = wrap64 (exact_sum (val <$> l)).
Proof.
  intros Hnd Hcov. rewrite series_sum_wrap.
  rewrite <- (exact_sum_by_key key val keys l Hnd Hcov).
  rewrite <- (wrap64_exact_sum_fmap
                (fun u => exact_sum (val <$> filter (fun a => key a = u) l))).
  do 2 f_equal. apply list_fmap_ext. intros _ u _. apply series_sum_wrap.
Qed.

Lemma rfm_monetary_total snapshot_date df :
  series_sum (Monetary <$> rfm snapshot_date df)
  = wrap64 (exact_sum (order_value <$> df)).
Proof.
  assert (Hcov : forall o, o ∈ df -> user_id o ∈ group_keys df).
  { intros o Ho. apply elem_of_group_keys. by apply list_elem_of_fmap_2. }
  unfold rfm. rewrite <- list_fmap_compose.
  rewrite <- (series_sum_by_key user_id order_value (group_keys df) df
                (NoDup_group_keys df) Hcov).
  f_equal.
Qed.

(** X4: for an integer order_value column, after a successful run the
    total revenue is the sum of all uploaded order values, taken in
    64-bit arithmetic, and the customer count is the number of distinct
    customer identifiers. *)
Theorem totals_of_a_run (snapshot_date : Z) (df : list OrderRecord)
    (rows : list ScoredRow) (k : KPI) :
  run snapshot_date df = Ok (rows, k) ->
  total_revenue k = wrap64 (exact_sum (order_value <$> df)) /\
  (- 2 ^ 63 <= exact_sum (order_value <$> df) < 2 ^ 63 ->
   total_revenue k = exact_sum (order_value <$> df)) /\
  total_customers k = length (remove_dups (user_id <$> df)).
Proof.
  intros [Hc ->]%run_Ok.
  apply classify_Ok in Hc as (rs & fs & ms & _ & _ & _ & _ & Hm & _).
  assert (Ht : total_revenue (kpis rows)
               = wrap64 (exact_sum (order_value <$> df))).
  { simpl. by rewrite list_fmap_compose, Hm, rfm_monetary_total. }
  split; [done |]. split.
  - intros Hfit. rewrite Ht. by apply wrap64_small.
  - simpl. rewrite <- (length_fmap metrics), Hm. unfold rfm, group_keys.
    by rewrite length_fmap, merge_sort_Permutation.
Qed.

Lemma totals_of_a_run_witness :
  exists rows k,
    run (100 * ns_per_day) orders_scenario = Ok (rows, k) /\
    total_revenue k = wrap64 (exact_sum (order_value <$> orders_scenario)).
Proof.
  destruct (run (100 * ns_per_day) orders_scenario) as [[rows k]|e] eqn:E;
    [| vm_compute in E; discriminate].
  exists rows, k. split; [reflexivity |].
  exact (proj1 (totals_of_a_run _ _ _ _ E)).
Defined.

Lemma series_count_indicator {A} (xs : list (option A)) :
  series_count xs
  = exact_sum ((fun x => if decide (is_Some x) then 1 else 0) <$> xs).
Proof.
  unfold series_count, exact_sum. induction xs as [|x xs IH]; [done |].
  rewrite filter_cons, fmap_cons, foldr_cons, <- IH.
  case_decide; [simpl length; rewrite Nat2Z.inj_succ |]; lia.
Qed.

(** X3: aggregation loses nothing: the Frequency column adds up to the
    number of uploaded rows whose order_id is not blank, and for an
    integer order_value column the Monetary column adds up, in 64-bit
    arithmetic, to the sum of all order values. *)
Theorem rfm_conserves_totals (snapshot_date : Z) (df : list OrderRecord) :
  exact_sum (Frequency <$> rfm snapshot_date df)
  = series_count (order_id <$> df) /\
  series_sum (Monetary <$> rfm snapshot_date df)
  = wrap64 (exact_sum (order_value <$> df)).
Proof.
  split; [| apply rfm_monetary_total].
  assert (Hcov : forall o, o ∈ df -> user_id o ∈ group_keys df).
  { intros o Ho. apply elem_of_group_keys. by apply list_elem_of_fmap_2. }
  rewrite series_count_indicator, <- list_fmap_compose.
  rewrite <- (exact_sum_by_key user_id _ (group_keys df) df
                (NoDup_group_keys df) Hcov).
  unfold rfm. rewrite <- list_fmap_compose.
  f_equal. apply list_fmap_ext. intros _ u _. simpl.
  by rewrite series_count_indicator, <- list_fmap_compose.
Qed.

(** ** Ranks are a numbering *)

Lemma count_below_equal_le (xs : list Z) a :
  (length (filter (fun y : Z => (y < a)%Z) xs)
   + length (filter (fun y : Z => y = a) xs) <= length xs)%nat.
Proof.
  induction xs as [|y xs IH]; [done |].
  rewrite !filter_cons. repeat case_decide; simpl; lia.
Qed.

Lemma rank_at_range (xs : list Z) i a :
  xs !! i = Some a -> 1 <= rank_at xs i a <= Z.of_nat (length xs).
Proof.
  intros Hi. unfold rank_at.
  pose proof (count_below_equal_le xs a).
  pose proof (count_equal_take xs i a Hi). lia.
Qed.

(** X5: [rank(method="first")] numbers the cells: the ranks of a column
    of [n] cells are the integers 1..n, each used once. *)
Theorem rank_first_numbers_cells (xs : list Z) :
  rank_first xs ≡ₚ Z.of_nat <$> seq 1 (length xs).
Proof.
  apply submseteq_length_Permutation.
  - apply NoDup_submseteq; [apply NoDup_rank_first |].
    intros r [i Hi]%list_elem_of_lookup.
    apply rank_first_lookup_inv in Hi as (a & Ha & ->).
    pose proof (rank_at_range xs i a Ha) as Hr.
    apply list_elem_of_fmap. exists (Z.to_nat (rank_at xs i a)).
    split; [lia |]. apply elem_of_seq. lia.
  - by rewrite length_fmap, length_seq, length_rank_first.
Qed.

(** ** Both ends of every score column are used *)







(** ** What the classifier looks at *)

Ltac segment_cases :=
  unfold segment;
  repeat match goal with
  | |- context [?a <=? ?b] => destruct (Z.leb_spec a b); simpl
  | |- context [?a =? ?b] => destruct (Z.eqb_spec a b); simpl
  end.

Lemma segment_at_risk_or_churned r f m :
  isin [AtRisk; Churned] (segment r f m) = true <-> r <= 2.
Proof.
  segment_cases; split; intros Hseg; try lia; try done;
    by vm_compute in Hseg.
Qed.

(** X7: the classifier reads F and M only for R >= 3: below that the
    segment depends on R alone; and M only ever separates Champion from
    Loyal. *)
Theorem segment_reads_scores_by_need (r f m f' m' : Z) :
  (r <= 2 -> segment r f m = segment r f' m') /\
  (segment r f m <> segment r f m' ->
   4 <= r /\ 4 <= f /\
   ((segment r f m = Champion /\ segment r f m' = Loyal)
    \/ (segment r f m = Loyal /\ segment r f m' = Champion))).
Proof.
  split.
  - intros Hr. segment_cases; try lia; done.
  - segment_cases; intros Hne; try done; try lia; auto.
Qed.

Lemma segment_reads_scores_by_need_witness :
  segment 2 5 5 = segment 2 1 1.
Proof. apply (segment_reads_scores_by_need 2 5 5 1 1). lia. Defined.

(** ** KPIs in terms of the scores *)

Lemma filter_ext_elem {A} (P Q : A -> Prop)
    `{!forall x, Decision (P x)} `{!forall x, Decision (Q x)} (l : list A) :
  (forall x, x ∈ l -> P x <-> Q x) -> filter P l = filter Q l.
Proof.
  induction l as [|x l IH]; intros Hext; [done |].
  rewrite !filter_cons.
  pose proof (Hext x (list_elem_of_here _ _)) as Hx.
  rewrite IH by (intros y Hy; apply Hext; by apply list_elem_of_further).
  repeat case_decide; tauto.
Qed.

(** X8: after a successful run the revenue at risk is the Monetary of
    the customers with R_Score at most 2, and the champion revenue that
    of the customers whose three scores are all at least 4. *)
Theorem kpis_by_scores (snapshot_date : Z) (df : list OrderRecord)
    (rows : list ScoredRow) (k : KPI) :
  run snapshot_date df = Ok (rows, k) ->
  at_risk_revenue k
  = series_sum (Monetary ∘ metrics
                  <$> filter (fun row => R_Score row <= 2) rows) /\
  champion_revenue k
  = series_sum (Monetary ∘ metrics
                  <$> filter (fun row => 4 <= R_Score row /\
                                4 <= F_Score row /\ 4 <= M_Score row) rows).
Proof.
  intros [Hc ->]%run_Ok.
  apply classify_Ok in Hc as (rs & fs & ms & _ & _ & _ & Hrows & _).
  simpl. unfold revenue_where. split; f_equal; f_equal.
  - apply filter_ext_elem. intros row Hrow.
    rewrite Hrows in Hrow. rewrite (assemble_Segment _ _ _ _ _ Hrow).
    apply segment_at_risk_or_churned.
  - apply filter_ext_elem. intros row Hrow.
    rewrite Hrows in Hrow. rewrite (assemble_Segment _ _ _ _ _ Hrow).
    unfold is_label. rewrite bool_decide_eq_true. apply segment_Champion.
Qed.

Lemma kpis_by_scores_witness :
  exists rows k,
    run (100 * ns_per_day) orders_scenario = Ok (rows, k) /\
    at_risk_revenue k
    = series_sum (Monetary ∘ metrics
                    <$> filter (fun row => R_Score row <= 2) rows).
Proof.
  destruct (run (100 * ns_per_day) orders_scenario) as [[rows k]|e] eqn:E;
    [| vm_compute in E; discriminate].
  exists rows, k. split; [reflexivity |].
  apply (kpis_by_scores _ _ _ _ E).
Defined.

(** ** KPIs of non-negative order values *)

Lemma spec_monetary_bounds u df :
  Forall (fun o => 0 <= order_value o) df ->
  0 <= spec_monetary u df <= exact_sum (order_value <$> df).
Proof.
  induction 1 as [|o df Ho Hdf IH]; [done |].
  rewrite fmap_cons, exact_sum_cons. simpl. case_decide; lia.
Qed.

Lemma rfm_monetary_fits snapshot_date df :
  Forall (fun o => 0 <= order_value o) df ->
  exact_sum (order_value <$> df) < 2 ^ 63 ->
  Forall (fun c => 0 <= Monetary c) (rfm snapshot_date df) /\
  exact_sum (Monetary <$> rfm snapshot_date df)
  = exact_sum (order_value <$> df).
Proof.
  intros Hdf Hfit.
  assert (Hm : forall u, Monetary (agg_group snapshot_date df u)
                         = spec_monetary u df).
  { intros u. simpl. rewrite group_monetary.
    pose proof (spec_monetary_bounds u df Hdf). apply wrap64_small. lia. }
  split.
  - apply Forall_forall. intros c [_ ->]%elem_of_rfm. rewrite Hm.
    by apply spec_monetary_bounds.
  - assert (Hcov : forall o, o ∈ df -> user_id o ∈ group_keys df).
    { intros o Ho. apply elem_of_group_keys. by apply list_elem_of_fmap_2. }
    unfold rfm. rewrite <- list_fmap_compose.
    rewrite <- (exact_sum_by_key user_id order_value (group_keys df) df
                  (NoDup_group_keys df) Hcov).
    f_equal. apply list_fmap_ext. intros _ u _. unfold compose.
    by rewrite Hm, <- group_exact_sum.
Qed.

(** X9: for an integer order_value column with no negative value and a
    sum below 2^63, a successful run reports champion revenue and
    revenue at risk between zero and the total revenue, and together
    they do not exceed the total. *)
Theorem revenue_kpis_bounded (snapshot_date : Z) (df : list OrderRecord)
    (rows : list ScoredRow) (k : KPI) :
  Forall (fun o => 0 <= order_value o) df ->
  exact_sum (order_value <$> df) < 2 ^ 63 ->
  run snapshot_date df = Ok (rows, k) ->
  0 <= champion_revenue k <= total_revenue k /\
  0 <= at_risk_revenue k <= total_revenue k /\
  champion_revenue k + at_risk_revenue k <= total_revenue k.
Proof.
  intros Hdf Hfit [Hc ->]%run_Ok.
  apply classify_Ok in Hc as (rs & fs & ms & _ & _ & _ & _ & Hm & _).
  destruct (rfm_monetary_fits snapshot_date df Hdf Hfit) as [Hnn Hsum].
  rewrite <- Hm in Hnn, Hsum. rewrite <- list_fmap_compose in Hsum.
  assert (Hpos : Forall (fun row => 0 <= Monetary (metrics row)) rows).
  { rewrite Forall_forall in Hnn. apply Forall_forall. intros row Hrow.
    apply (Hnn (metrics row)). by apply list_elem_of_fmap_2. }
  simpl. rewrite series_sum_wrap, !revenue_where_exact.
  pose proof (exact_revenue_where_bounds (is_label Champion) rows Hpos).
  pose proof (exact_revenue_where_bounds (isin [AtRisk; Churned]) rows Hpos).
  pose proof (exact_revenue_where_bounds (is_label Loyal) rows Hpos).
  pose proof (exact_revenue_where_bounds (is_label FenceSitter) rows Hpos).
  pose proof (exact_revenue_partition rows) as Hpart.
  rewrite !wrap64_small by lia. lia.
Qed.

Lemma revenue_kpis_bounded_witness :
  exists rows k,
    run (100 * ns_per_day) orders_scenario = Ok (rows, k) /\
    champion_revenue k + at_risk_revenue k <= total_revenue k.
Proof.
  destruct (run (100 * ns_per_day) orders_scenario) as [[rows k]|e] eqn:E;
    [| vm_compute in E; discriminate].
  exists rows, k. split; [reflexivity |].
  apply (revenue_kpis_bounded (100 * ns_per_day) orders_scenario rows k);
    [| | exact E].
  - apply (bool_decide_unpack _). vm_compute. exact I.
  - vm_compute. reflexivity.
Defined.

(** ** Upload check *)

Lemma has_required_cols_spec (columns : list string) :
  has_required_cols columns = true <->
  forall col, col ∈ required_cols -> col ∈ columns.
Proof.
  unfold has_required_cols. rewrite forallb_forall. split.
  - intros H col Hcol. apply list_elem_of_In in Hcol.
    specialize (H col Hcol). by apply bool_decide_eq_true in H.
  - intros H col Hcol. apply list_elem_of_In in Hcol.
    apply bool_decide_eq_true. by apply H.
Qed.

(** X11: an upload that passes the column check still passes after
    columns are added or reordered, and an upload that lacks one of the
    six required columns is stopped whatever else it contains. *)
Theorem column_check_monotone (columns columns' : list string) :
  (forall col, col ∈ columns -> col ∈ columns') ->
  (has_required_cols columns = true -> has_required_cols columns' = true) /\
  (forall col, col ∈ required_cols -> col ∉ columns' ->
     has_required_cols columns = false).
Proof.
  intros Hsub. split.
  - rewrite !has_required_cols_spec. auto.
  - intros col Hreq Hmiss.
    destruct (has_required_cols columns) eqn:E; [| done].
    rewrite has_required_cols_spec in E. exfalso. auto.
Qed.

Lemma column_check_monotone_witness :
  has_required_cols
    ["note"; "discount_given"; "order_value"; "product_name"; "order_date";
     "order_id"; "user_id"]%string = true.
Proof.
  apply (column_check_monotone required_cols
           ["note"; "discount_given"; "order_value"; "product_name";
            "order_date"; "order_id"; "user_id"]%string).
  - intros col Hcol. vm_compute in Hcol.
    repeat (apply elem_of_cons in Hcol as [-> | Hcol]);
      try (by apply elem_of_nil in Hcol);
      apply (bool_decide_unpack _); vm_compute; exact I.
  - vm_compute. reflexivity.
Defined.

(** ** Default analysis date *)




(** ** The display key *)

Lemma astype_str_score_inj (z z' : Z) (s s' : string) :
  1 <= z <= 5 -> 1 <= z' <= 5 ->
  (astype_str z ++ s)%string = (astype_str z' ++ s')%string ->
  z = z' /\ s = s'.
Proof.
  intros Hz Hz'.
  assert (Hc : z = 1 \/ z = 2 \/ z = 3 \/ z = 4 \/ z = 5) by lia.
  assert (Hc' : z' = 1 \/ z' = 2 \/ z' = 3 \/ z' = 4 \/ z' = 5) by lia.
  destruct Hc as [-> | [-> | [-> | [-> | ->]]]];
    destruct Hc' as [-> | [-> | [-> | [-> | ->]]]];
    cbn; intros H; inversion H; done.
Qed.

Lemma astype_str_score_length (z : Z) :
  1 <= z <= 5 -> String.length (astype_str z) = 1%nat.
Proof.
  intros Hz.
  assert (Hc : z = 1 \/ z = 2 \/ z = 3 \/ z = 4 \/ z = 5) by lia.
  by destruct Hc as [-> | [-> | [-> | [-> | ->]]]].
Qed.

Lemma classified_scores_range cms rows row :
  classify cms = Ok rows -> row ∈ rows ->
  1 <= R_Score row <= 5 /\ 1 <= F_Score row <= 5 /\ 1 <= M_Score row <= 5.
Proof.
  intros (rs & fs & ms & Hrs & Hfs & Hms & _ & _ & HR & HF & HM)%classify_Ok
    Hrow.
  unfold R_Score_column, F_Score_column, M_Score_column in *.
  split; [| split].
  - eapply (inverted_column_range _ rs); [done |].
    rewrite <- HR. by apply list_elem_of_fmap_2.
  - eapply (direct_column_range _ fs); [done |].
    rewrite <- HF. by apply list_elem_of_fmap_2.
  - eapply (direct_column_range _ ms); [done |].
    rewrite <- HM. by apply list_elem_of_fmap_2.
Qed.

Lemma string_app_empty (s : string) : (s ++ "")%string = s.
Proof.
  induction s as [|c s IH]; [done |].
  change (String c (String.append s EmptyString) = String c s). by rewrite IH.
Qed.

Lemma string_length_app (s t : string) :
  String.length (s ++ t) = (String.length s + String.length t)%nat.
Proof.
  induction s as [|c s IH]; [done |].
  change (S (String.length (String.append s t))
          = S (String.length s + String.length t)). by rewrite IH.
Qed.

(** X13: after a successful run every RFM_Score is a three-character
    string, and two customers have the same RFM_Score exactly when they
    have the same three scores, hence the same segment. *)
Theorem RFM_Score_encodes_scores (snapshot_date : Z) (df : list OrderRecord)
    (rows : list ScoredRow) (k : KPI) :
  run snapshot_date df = Ok (rows, k) ->
  forall a b, a ∈ rows -> b ∈ rows ->
    String.length (RFM_Score a) = 3%nat /\
    (RFM_Score a = RFM_Score b <->
     R_Score a = R_Score b /\ F_Score a = F_Score b /\
     M_Score a = M_Score b) /\
    (RFM_Score a = RFM_Score b -> Segment a = Segment b).
Proof.
  intros [Hc ->]%run_Ok a b Ha Hb.
  destruct (classified_scores_range _ _ a Hc Ha) as (Ra & Fa & Ma).
  destruct (classified_scores_range _ _ b Hc Hb) as (Rb & Fb & Mb).
  assert (Hdec : RFM_Score a = RFM_Score b ->
            R_Score a = R_Score b /\ F_Score a = F_Score b /\
            M_Score a = M_Score b).
  { unfold RFM_Score. intros H.
    apply astype_str_score_inj in H as [HR H]; [| done..].
    apply astype_str_score_inj in H as [HF H]; [| done..].
    rewrite <- (string_app_empty (astype_str (M_Score a))) in H.
    rewrite <- (string_app_empty (astype_str (M_Score b))) in H.
    apply astype_str_score_inj in H as [HM _]; done. }
  split; [| split].
  - unfold RFM_Score.
    by rewrite !string_length_app, !astype_str_score_length.
  - split; [exact Hdec |].
    intros (HR & HF & HM). unfold RFM_Score. by rewrite HR, HF, HM.
  - intros (HR & HF & HM)%Hdec.
    apply classify_Ok in Hc as (rs & fs & ms & _ & _ & _ & Hrows & _).
    rewrite Hrows in Ha, Hb.
    rewrite (assemble_Segment _ _ _ _ _ Ha), (assemble_Segment _ _ _ _ _ Hb).
    by rewrite HR, HF, HM.
Qed.

Lemma RFM_Score_encodes_scores_witness :
  exists rows k,
    run (100 * ns_per_day) orders_scenario = Ok (rows, k) /\
    forall a, a ∈ rows -> String.length (RFM_Score a) = 3%nat.
Proof.
  destruct (run (100 * ns_per_day) orders_scenario) as [[rows k]|e] eqn:E;
    [| vm_compute in E; discriminate].
  exists rows, k. split; [reflexivity |].
  intros a Ha.
  apply (RFM_Score_encodes_scores _ _ _ _ E a a Ha Ha).
Defined.

(** ** Revenue by segment *)

Global Instance label_le_total : Total label_le.
Proof. intros a b. apply String.leb_total. Qed.

Lemma segment_revenue_filter s rows :
  segment_revenue s rows
  = series_sum (Monetary ∘ metrics
                  <$> filter (fun row => Segment row = s) rows).
Proof.
  unfold segment_revenue, revenue_where. do 2 f_equal.
  apply list_filter_iff. intros row. unfold is_label.
  apply bool_decide_eq_true.
Qed.

(** X14: the revenue-by-segment table has one line per segment that
    has customers, in the order of the segment names, and for an integer
    Monetary column its revenues add up, in 64-bit arithmetic, to the
    total revenue. *)
Theorem seg_revenue_table (rows : list ScoredRow) :
  NoDup (fst <$> seg_revenue rows) /\
  Sorted label_le (fst <$> seg_revenue rows) /\
  (forall s, s ∈ fst <$> seg_revenue rows <-> s ∈ Segment <$> rows) /\
  (forall s v, (s, v) ∈ seg_revenue rows -> v = segment_revenue s rows) /\
  series_sum (snd <$> seg_revenue rows)
  = series_sum (Monetary ∘ metrics <$> rows).
Proof.
  unfold seg_revenue.
  set (keys := merge_sort label_le (remove_dups (Segment <$> rows))).
  assert (Hfst : fst <$> ((fun s => (s, segment_revenue s rows)) <$> keys)
                 = keys).
  { rewrite <- list_fmap_compose. clear.
    induction keys as [|s keys IH]; [done |]. rewrite fmap_cons. by f_equal. }
  assert (Hperm : keys ≡ₚ remove_dups (Segment <$> rows))
    by apply merge_sort_Permutation.
  assert (Hnd : NoDup keys).
  { rewrite Hperm. apply NoDup_remove_dups. }
  assert (Hin : forall s, s ∈ keys <-> s ∈ Segment <$> rows).
  { intros s. rewrite Hperm. apply elem_of_remove_dups. }
  rewrite Hfst. split; [done |].
  split; [apply Sorted_merge_sort; apply _ |].
  split; [done |]. split.
  - intros s v (s' & Heq & _)%list_elem_of_fmap. by inversion Heq.
  - rewrite <- list_fmap_compose.
    rewrite (series_sum_wrap (Monetary ∘ metrics <$> rows)).
    rewrite <- (series_sum_by_key Segment (Monetary ∘ metrics) keys rows Hnd).
    + f_equal. apply list_fmap_ext. intros _ s _. simpl.
      apply segment_revenue_filter.
    + intros row Hrow. apply Hin. by apply list_elem_of_fmap_2.
Qed.

(** ** Monthly revenue trend *)

Lemma foldr_min_le (x : Z) (t : list Z) :
  foldr Z.min x t <= x /\ forall y, y ∈ t -> foldr Z.min x t <= y.
Proof.
  induction t as [|z t [IHx IHt]]; simpl.
  - split; [lia | intros y Hy; by apply elem_of_nil in Hy].
  - split; [lia |].
    intros y [-> | Hy]%elem_of_cons; [lia |].
    specialize (IHt y Hy). lia.
Qed.

Lemma monthly_unfold df i rest :
  month_index ∘ order_date <$> df = i :: rest ->
  monthly df
  = (fun j =>
       (month_end j,
        series_sum
          (order_value
             <$> filter (fun o => month_index (order_date o) = j) df)))
      <$> seqZ (foldr Z.min i rest)
            (foldr Z.max i rest - foldr Z.min i rest + 1).
Proof. intros H. unfold monthly. by rewrite H. Qed.

Lemma month_in_range df i rest o :
  month_index ∘ order_date <$> df = i :: rest -> o ∈ df ->
  month_index (order_date o)
  ∈ seqZ (foldr Z.min i rest) (foldr Z.max i rest - foldr Z.min i rest + 1).
Proof.
  intros Hidx Ho.
  assert (Hin : month_index (order_date o) ∈ i :: rest).
  { rewrite <- Hidx. by apply (list_elem_of_fmap_2 (month_index ∘ order_date)). }
  destruct (foldr_min_le i rest) as [Hlo Hlos].
  destruct (foldr_max_ge i rest) as [Hhi His].
  apply elem_of_seqZ.
  apply elem_of_cons in Hin as [-> | Hin]; [lia |].
  specialize (Hlos _ Hin). specialize (His _ Hin). lia.
Qed.

(** X16: for an integer order_value column the monthly trend loses no
    revenue: its monthly sums add up, in 64-bit arithmetic, to the sum of
    all order values, which is the total revenue of a successful run,
    and every order's month has a line in it. *)
Theorem monthly_revenue_conserved (df : list OrderRecord) :
  series_sum (snd <$> monthly df) = wrap64 (exact_sum (order_value <$> df)) /\
  (forall snapshot_date rows k, run snapshot_date df = Ok (rows, k) ->
     series_sum (snd <$> monthly df) = total_revenue k) /\
  (forall o, o ∈ df ->
     exists v, (month_end (month_index (order_date o)), v) ∈ monthly df).
Proof.
  assert (Hsum : series_sum (snd <$> monthly df)
                 = wrap64 (exact_sum (order_value <$> df))).
  { destruct (month_index ∘ order_date <$> df) as [|i rest] eqn:Hidx.
    - apply fmap_nil_inv in Hidx. by subst df.
    - rewrite (monthly_unfold _ _ _ Hidx), <- list_fmap_compose.
      rewrite <- (series_sum_by_key (month_index ∘ order_date) order_value
                    (seqZ (foldr Z.min i rest)
                       (foldr Z.max i rest - foldr Z.min i rest + 1)) df).
      + f_equal.
      + apply NoDup_seqZ.
      + intros o Ho. by apply (month_in_range _ _ _ _ Hidx). }
  split; [done |]. split.
  - intros snapshot_date rows k [Hc ->]%run_Ok.
    apply classify_Ok in Hc as (rs & fs & ms & _ & _ & _ & _ & Hm & _).
    simpl. by rewrite Hsum, list_fmap_compose, Hm, rfm_monetary_total.
  - intros o Ho.
    destruct (month_index ∘ order_date <$> df) as [|i rest] eqn:Hidx.
    + apply fmap_nil_inv in Hidx. subst df. by apply elem_of_nil in Ho.
    + rewrite (monthly_unfold _ _ _ Hidx). eexists.
      apply list_elem_of_fmap. exists (month_index (order_date o)).
      split; [reflexivity |]. by apply (month_in_range _ _ _ _ Hidx).
Qed.

(** The calendar on four orders from 2023-12-29 to 2024-03-01: the
    lines are labelled 2023-12-31, 2024-01-31, 2024-02-29, 2024-03-31. *)
Example monthly_leap_year :
  monthly [order_on 1 19753 10; order_on 2 19783 20; order_on 1 19754 5;
           order_on 3 19720 7]
  = [(19722 * ns_per_day, 7); (19753 * ns_per_day, 10);
     (19782 * ns_per_day, 5); (19813 * ns_per_day, 20)].
Proof. by vm_compute. Qed.

(** ** Ties between customers *)

Lemma StronglySorted_lookup_lt (l : list Z) i j a b :
  StronglySorted Z.lt l ->
  l !! i = Some a -> l !! j = Some b -> (i < j)%nat -> a < b.
Proof.
  intros Hs. revert i j.
  induction Hs as [|x l Hs IH Hall]; intros i j Hi Hj Hij.
  - by rewrite lookup_nil in Hi.
  - destruct i as [|i], j as [|j]; simpl in Hi, Hj; try lia.
    + inversion Hi; subst a. rewrite Forall_lookup in Hall. eauto.
    + eapply IH; eauto with lia.
Qed.

(** X17: ties are broken by customer identifier: of two customers with
    the same Frequency (or Monetary), the one with the smaller
    identifier never gets the higher F_Score (or M_Score). *)
Theorem ties_broken_by_customer_id (snapshot_date : Z)
    (df : list OrderRecord) (rows : list ScoredRow) (k : KPI) :
  run snapshot_date df = Ok (rows, k) ->
  forall a b, a ∈ rows -> b ∈ rows ->
    rfm_user_id (metrics a) <= rfm_user_id (metrics b) ->
    (Frequency (metrics a) = Frequency (metrics b) ->
     F_Score a <= F_Score b) /\
    (Monetary (metrics a) = Monetary (metrics b) ->
     M_Score a <= M_Score b).
Proof.
  intros [Hc ->]%run_Ok a b [i Ha]%list_elem_of_lookup
    [j Hb]%list_elem_of_lookup Hid.
  apply classify_Ok in Hc
    as (rs & fs & ms & _ & Hfs & Hms & _ & Hm & _ & HF & HM).
  assert (Hij : (i <= j)%nat).
  { destruct (decide (i <= j)%nat) as [|Hgt]; [done | exfalso].
    assert (Hs : StronglySorted Z.lt (rfm_user_id <$> (metrics <$> rows))).
    { rewrite Hm, rfm_user_ids. apply StronglySorted_le_lt.
      - apply StronglySorted_merge_sort; apply _.
      - apply NoDup_group_keys. }
    destruct (row_lookup rfm_user_id F_Score rows i a Ha) as [Hia _].
    destruct (row_lookup rfm_user_id F_Score rows j b Hb) as [Hjb _].
    pose proof (StronglySorted_lookup_lt _ j i _ _ Hs Hjb Hia ltac:(lia)).
    lia. }
  unfold F_Score_column, M_Score_column in *.
  rewrite <- Hm, <- HF in Hfs. rewrite <- Hm, <- HM in Hms.
  apply direct_mapping_of_ranks in Hfs as [Hf _].
  apply direct_mapping_of_ranks in Hms as [Hmm _].
  split; intros Heq.
  - apply (Hf i j a b Ha Hb). right. by split.
  - apply (Hmm i j a b Ha Hb). right. by split.
Qed.

Lemma ties_broken_by_customer_id_witness :
  exists rows k,
    run (100 * ns_per_day) orders_scenario = Ok (rows, k) /\
    forall a b, a ∈ rows -> b ∈ rows ->
      rfm_user_id (metrics a) <= rfm_user_id (metrics b) ->
      Frequency (metrics a) = Frequency (metrics b) ->
      F_Score a <= F_Score b.
Proof.
  destruct (run (100 * ns_per_day) orders_scenario) as [[rows k]|e] eqn:E;
    [| vm_compute in E; discriminate].
  exists rows, k. split; [reflexivity |].
  intros a b Ha Hb Hid.
  apply (ties_broken_by_customer_id _ _ _ _ E a b Ha Hb Hid).
Defined.
